(** * Lineup assignment engine of sleeper-fantasy-mcp

    A shallow embedding of [src/tools/LineupOptimizerTool.ts]: the
    projection fetch of one roster player, the construction of the player
    pool, [groupPlayersByPosition], [optimizeLineup], [findLineupChanges],
    [getCurrentWeek] and the control flow of [execute] around them, with
    [getLeagueConfig] of [src/config.ts] and the request handler of the
    server, which calls [execute].

    Conventions.
    - A JavaScript number is modelled by the rational its double denotes
      ([Q]); sums and differences are taken exactly, and [toFixed] rounds
      that rational as ECMAScript prescribes (numbers of 1e21 and above,
      which [toFixed] prints in exponent form, are left aside).
    - The pool stores [Number(projectedPoints.toFixed(2))].  That value is
      the double nearest to [n / 100] for an integer [n]; the field
      [projectedPoints] of [Player] holds this [n] (hundredths of a
      point).  Comparing two such doubles and comparing the two integers
      give the same answer.
    - The object [grouped] is modelled twice.  [groupPlayersByPosition]
      and [optimizeLineup] work on the table of its own properties, an
      association list in insertion order: this is what the code computes
      when it returns and no position is an array index.
      [groupPlayersByPositionJs] and [optimizeLineupJs] add what a plain
      object does besides: a read of a name that is no own property goes
      to [Object.prototype], so that a position or a slot named
      constructor or toString makes the code throw a TypeError, and
      [Object.keys] lists array indices first.  [execute] runs the latter;
      when they return, their result is that of the former up to the order
      of the keys ([groupPlayersByPositionJs_Normal],
      [optimizeLineupJs_cases]).  Dictionaries that are only looked up are
      [gmap]s, the [Set] of used players is a [gset].
    - The data read from the Sleeper API has the types of
      [src/types/sleeper.ts].  The outcome of a [fetch] is a parameter of
      [execute]; a rejection among the four fetches awaited together is
      reported in the order of the array.  The week and the season only
      select the projection that is fetched: the outcome of that fetch is
      given per player, and the week is modelled on its own.
    - StringToNumber, which ECMAScript applies when a string is subtracted
      from a number, is a parameter of the diff. *)

From Stdlib Require Import ZArith QArith Qround Qabs Lqa.
From stdpp Require Import base decidable option list gmap strings pretty sorting.

Local Open Scope Z_scope.
Local Open Scope string_scope.
Local Open Scope list_scope.

(** ** Completions: values and thrown errors *)

Inductive Completion (A : Type) : Type :=
| Normal (a : A)
| Throw (message : string).
Arguments Normal {A} a.
Arguments Throw {A} message.

Definition cbind {A B} (c : Completion A) (k : A -> Completion B) : Completion B :=
  match c with
  | Normal a => k a
  | Throw m => Throw m
  end.

(** [try { c } catch (error) { h error }] *)
Definition tryCatch {A} (c : Completion A) (h : string -> Completion A) : Completion A :=
  match c with
  | Normal a => Normal a
  | Throw m => h m
  end.

#[global] Instance Completion_ret : MRet Completion := fun A a => Normal a.
#[global] Instance Completion_bind : MBind Completion := fun A B k c => cbind c k.

Definition throws {A} (c : Completion A) : Prop :=
  match c with
  | Normal _ => False
  | Throw _ => True
  end.

(** ** Numbers *)

(** The integer [n] of [Number.prototype.toFixed(f)]: the integer for which
    [n / 10^f - x] is as close to zero as possible, the larger one when
    there are two; a negative [x] is negated first and the sign put back. *)
Definition roundHalfUp (x : Q) : Z := Qfloor (x + (1 # 2))%Q.

Definition toFixedInt (f : nat) (x : Q) : Z :=
  let scale := inject_Z (10 ^ Z.of_nat f) in
  if Qlt_le_dec x 0 then - roundHalfUp (- x * scale)%Q
  else roundHalfUp (x * scale)%Q.

(** [Number(x.toFixed(2))], in hundredths. *)
Definition roundTo2 (x : Q) : Z := toFixedInt 2 x.

(** The digits of [n], filled up with zeros to [width] digits, with a
    decimal point before the last [f] of them. *)
Fixpoint zeros (n : nat) : string :=
  match n with
  | O => ""
  | S k => "0" +:+ zeros k
  end.

Definition padLeft (width : nat) (s : string) : string :=
  zeros (width - String.length s) +:+ s.

Definition insertPoint (f : nat) (digits : string) : string :=
  let k := (String.length digits - f)%nat in
  match f with
  | O => digits
  | _ => String.substring 0 k digits +:+ "." +:+ String.substring k f digits
  end.

Definition toFixed (f : nat) (x : Q) : string :=
  let scale := inject_Z (10 ^ Z.of_nat f) in
  if Qlt_le_dec x 0
  then "-" +:+ insertPoint f (padLeft (S f) (pretty (roundHalfUp (- x * scale)%Q)))
  else insertPoint f (padLeft (S f) (pretty (roundHalfUp (x * scale)%Q))).

(** The value of a number expression that may have gone through a string. *)
Inductive JsNumber : Type :=
| NaN
| Infinity (negative : bool)
| Finite (q : Q).

(** [a - b] for a finite [a]. *)
Definition subFrom (a : Q) (b : JsNumber) : JsNumber :=
  match b with
  | NaN => NaN
  | Infinity negative => Infinity (negb negative)
  | Finite q => Finite (a - q)%Q
  end.

Definition numberToFixed (f : nat) (x : JsNumber) : string :=
  match x with
  | NaN => "NaN"
  | Infinity false => "Infinity"
  | Infinity true => "-Infinity"
  | Finite q => toFixed f q
  end.

(** ** Data of the Sleeper API ([src/types/sleeper.ts]) *)

Module Sleeper.

Record Player := {
  player_id : string;
  position : string;
  team : string;
  first_name : string;
  last_name : string;
  full_name : string;
  age : Z;
  (** [player.fantasy_positions || [player.position]]: the field may be
      null. *)
  fantasy_positions : option (list string);
  status : string
}.

Record User := {
  user_id : string;
  username : string;
  display_name : string
}.

Record Roster := {
  owner_id : string;
  players : list string;
  starters : list string
}.

Record League := {
  roster_positions : list string
}.

(** The body of [/projections/nfl/player/<id>]: [data.stats?.pts_ppr]. *)
Record Stats := {
  pts_ppr : option Q
}.

Record Projection := {
  stats : option Stats
}.

End Sleeper.

(** [src/config.ts] *)
Record LeagueConfig := {
  id : string;
  teamName : string
}.

Record Config := {
  username : string;
  ROAD_TO_GLORY : LeagueConfig;
  DYNASTY : LeagueConfig;
  defaultLeague : string
}.

(** [a || b] on strings: the empty string is falsy. *)
Definition orString (a : option string) (b : string) : string :=
  match a with
  | Some s => if decide (s = "") then b else s
  | None => b
  end.

Definition getLeagueConfig (config : Config) (leagueName : option string) : option LeagueConfig :=
  let league := orString leagueName (defaultLeague config) in
  if decide (league = "ROAD_TO_GLORY") then Some (ROAD_TO_GLORY config)
  else if decide (league = "DYNASTY") then Some (DYNASTY config)
  else None.

(** ** The player pool *)

(** An entry of [playerPool]; [projectedPoints] is in hundredths. *)
Record Player := {
  playerId : string;
  name : string;
  position : string;
  team : string;
  status : string;
  projectedPoints : Z;
  eligiblePositions : list string
}.

(** An entry of the optimized lineup: [{ ...bestPlayer, lineupPosition }]. *)
Record LineupEntry := {
  player : Player;
  lineupPosition : string
}.

#[global] Instance Player_eq_dec : EqDecision Player.
Proof. solve_decision. Defined.

#[global] Instance LineupEntry_eq_dec : EqDecision LineupEntry.
Proof. solve_decision. Defined.

(** ** Projection of one roster player (the body of [projectionPromises]) *)

Record Response (A : Type) := {
  ok : bool;
  json : Completion A
}.
Arguments ok {A} _.
Arguments json {A} _.

(** [x || 0] on a number that may be undefined. *)
Definition orZero (x : option Q) : Q := default 0%Q x.

(** [data.stats?.pts_ppr || 0]; [data] is [None] when the body is the JSON
    value null, and reading [data.stats] is then a TypeError. *)
Definition readPtsPpr (data : option Sleeper.Projection) : Completion Q :=
  match data with
  | None => Throw "Cannot read properties of null (reading 'stats')"
  | Some d => Normal (orZero (s ← Sleeper.stats d; Sleeper.pts_ppr s))
  end.

(** The result of [fetch]: it rejects, or it resolves to a response. *)
Definition FetchResult (A : Type) : Type := Completion (Response A).

Definition projectionTry (fetched : FetchResult (option Sleeper.Projection)) : Completion Q :=
  projectionResponse ← fetched;
  if ok projectionResponse then
    data ← json projectionResponse;
    readPtsPpr data
  else Normal 0%Q.

Definition projectedPointsOf (fetched : FetchResult (option Sleeper.Projection)) : Completion Q :=
  tryCatch (projectionTry fetched) (fun _ => Normal 0%Q).

(** [new Map(entries)]: a later entry for the same key replaces an earlier
    one. *)
Definition mapOfEntries {V} (entries : list (string * V)) : gmap string V :=
  foldl (fun m kv => <[kv.1 := kv.2]> m) ∅ entries.

(** [Promise.all] over a list of completions. *)
Fixpoint promiseAll {A} (l : list (Completion A)) : Completion (list A) :=
  match l with
  | [] => Normal []
  | c :: l' => a ← c; r ← promiseAll l'; Normal (a :: r)
  end.

Definition makePlayer (players : gmap string Sleeper.Player)
    (playerProjections : gmap string Q) (playerId : string) : option Player :=
  match players !! playerId with
  | None => None
  | Some player =>
      let projectedPoints := orZero (playerProjections !! playerId) in
      Some {| playerId := playerId;
              name := Sleeper.first_name player +:+ " " +:+ Sleeper.last_name player;
              position := Sleeper.position player;
              team := Sleeper.team player;
              status := Sleeper.status player;
              projectedPoints := roundTo2 projectedPoints;
              eligiblePositions :=
                match Sleeper.fantasy_positions player with
                | Some l => l
                | None => [Sleeper.position player]
                end |}
  end.

Definition isActive (p : Player) : bool := bool_decide (status p = "Active").

Definition playerPool (players : gmap string Sleeper.Player)
    (playerProjections : gmap string Q) (rosterPlayers : list string) : list Player :=
  filter (fun p => isActive p = true) (omap (makePlayer players playerProjections) rosterPlayers).

(** ** [groupPlayersByPosition], on the table of own properties *)

(** [grouped]: the own properties, position name to players. *)
Definition Grouped : Type := list (string * list Player).

(** The own property of a name. *)

Fixpoint lookupGroup (position : string) (grouped : Grouped) : option (list Player) :=
  match grouped with
  | [] => None
  | (k, ps) :: rest => if decide (k = position) then Some ps else lookupGroup position rest
  end.

(** [if (!grouped[position]) grouped[position] = []; grouped[position].push(player)],
    for a position that is an own property or no member of
    [Object.prototype]; keys in insertion order. *)
Fixpoint pushPlayer (position : string) (p : Player) (grouped : Grouped) : Grouped :=
  match grouped with
  | [] => [(position, [p])]
  | (k, ps) :: rest =>
      if decide (k = position) then (k, ps ++ [p]) :: rest
      else (k, ps) :: pushPlayer position p rest
  end.

(** [(a, b) => b.projectedPoints - a.projectedPoints] is positive exactly
    when [a] has to come after [b]. *)
Definition comesAfter (a b : Player) : bool := (projectedPoints a <? projectedPoints b)%Z.

(** [Array.prototype.sort] is stable: insertion sort that never moves an
    element past one it does not have to come after. *)
Fixpoint insertSorted (p : Player) (l : list Player) : list Player :=
  match l with
  | [] => [p]
  | q :: l' => if comesAfter p q then q :: insertSorted p l' else p :: q :: l'
  end.

Definition sortByPoints (l : list Player) : list Player := foldr insertSorted [] l.

(** Another stable sort, as an engine may implement it: the elements are
    taken from the left and each is placed behind the elements it does not
    have to come before. *)
Fixpoint insertBehind (p : Player) (l : list Player) : list Player :=
  match l with
  | [] => [p]
  | q :: l' => if comesAfter q p then p :: q :: l' else q :: insertBehind p l'
  end.

Definition sortFromLeft (l : list Player) : list Player :=
  foldl (fun sorted p => insertBehind p sorted) [] l.

(** [player.eligiblePositions.forEach(position => ...)] *)
Definition pushAll (player : Player) (grouped : Grouped) (positions : list string) : Grouped :=
  foldl (fun grouped position => pushPlayer position player grouped) grouped positions.

Definition collectGroups (players : list Player) : Grouped :=
  foldl (fun grouped player => pushAll player grouped (eligiblePositions player)) [] players.

(** The grouping with the sort left open. *)
Definition groupPlayersByPositionWith (sort : list Player -> list Player)
    (players : list Player) : Grouped :=
  map (fun kv => (kv.1, sort kv.2)) (collectGroups players).

Definition groupPlayersByPosition (players : list Player) : Grouped :=
  groupPlayersByPositionWith sortByPoints players.

(** ** [optimizeLineup], on the table of own properties *)

Definition isUnused (usedPlayers : gset string) (p : Player) : bool :=
  bool_decide (playerId p ∉ usedPlayers).

(** The body of the inner [forEach] of the FLEX and SUPER_FLEX branches. *)
Definition consider (usedPlayers : gset string) (bestPlayer : option Player)
    (p : Player) : option Player :=
  if isUnused usedPlayers p
     && match bestPlayer with
        | None => true
        | Some best => (projectedPoints best <? projectedPoints p)%Z
        end
  then Some p else bestPlayer.

Definition flexEligible : list string := ["RB"; "WR"; "TE"].

Definition selectFlex (playersByPosition : Grouped) (usedPlayers : gset string) : option Player :=
  foldl (fun bestPlayer pos =>
           match lookupGroup pos playersByPosition with
           | Some ps => foldl (consider usedPlayers) bestPlayer ps
           | None => bestPlayer
           end)
        None flexEligible.

Definition selectSuperFlex (playersByPosition : Grouped) (usedPlayers : gset string) : option Player :=
  foldl (fun bestPlayer kv => foldl (consider usedPlayers) bestPlayer kv.2)
        None playersByPosition.

(** [playersByPosition[position].find(player => !usedPlayers.has(player.playerId))],
    for a position that is an own property or no member of
    [Object.prototype]. *)
Definition selectFixed (playersByPosition : Grouped) (usedPlayers : gset string)
    (position : string) : option Player :=
  match lookupGroup position playersByPosition with
  | Some ps => List.find (isUnused usedPlayers) ps
  | None => None
  end.

Definition selectFor (playersByPosition : Grouped) (usedPlayers : gset string)
    (position : string) : option Player :=
  if decide (position = "FLEX") then selectFlex playersByPosition usedPlayers
  else if decide (position = "SUPER_FLEX") then selectSuperFlex playersByPosition usedPlayers
  else selectFixed playersByPosition usedPlayers position.

(** The state of the loop over [rosterPositions]. *)
Record LineupState := {
  lineup : list LineupEntry;
  usedPlayers : gset string
}.

Definition fillSlot (playersByPosition : Grouped) (st : LineupState)
    (position : string) : LineupState :=
  if decide (position = "BN") then st
  else
    match selectFor playersByPosition (usedPlayers st) position with
    | Some bestPlayer =>
        {| lineup := lineup st ++ [{| player := bestPlayer; lineupPosition := position |}];
           usedPlayers := usedPlayers st ∪ {[playerId bestPlayer]} |}
    | None => st
    end.

Definition emptyLineup : LineupState := {| lineup := []; usedPlayers := ∅ |}.

Definition optimizeLineup (playersByPosition : Grouped) (rosterPositions : list string)
    : list LineupEntry :=
  lineup (foldl (fillSlot playersByPosition) emptyLineup rosterPositions).

(** [optimizedLineup.reduce((sum, player) => sum + player.projectedPoints, 0)],
    in hundredths. *)
Definition optimalProjection (optimizedLineup : list LineupEntry) : Z :=
  foldl (fun sum e => sum + projectedPoints (player e)) 0 optimizedLineup.

(** The two steps on the pool. *)
Definition assign (players : list Player) (slots : list string) : list LineupEntry :=
  optimizeLineup (groupPlayersByPosition players) slots.

(** ** The two functions on a plain object

    [grouped] and [playersByPosition] are plain objects.  Two things the
    association list above leaves aside are added here: a read [obj[name]]
    of a name that is no own property goes to [Object.prototype], and
    [Object.keys] lists the own properties whose names are array indices
    first, in ascending order, and the others in the order of their
    creation.  The functions of this section take and give the list of own
    properties in the order of [Object.keys]. *)

(** The names of the members of [Object.prototype].  Each is a function
    ([__proto__] gives the prototype itself): truthy, and without [push]
    and [find], so that calling these on it throws a TypeError (the
    messages below are those of V8). *)
Definition inheritedNames : list string :=
  ["constructor"; "__defineGetter__"; "__defineSetter__"; "hasOwnProperty";
   "__lookupGetter__"; "__lookupSetter__"; "isPrototypeOf"; "propertyIsEnumerable";
   "toString"; "valueOf"; "__proto__"; "toLocaleString"].

(** [obj[name]] *)
Inductive Property : Type :=
| Own (ps : list Player)
| Inherited
| Undefined.

Definition getProperty (name : string) (obj : Grouped) : Property :=
  match lookupGroup name obj with
  | Some ps => Own ps
  | None => if decide (name ∈ inheritedNames) then Inherited else Undefined
  end.

(** The value of a string of decimal digits. *)
Fixpoint digitsValue (acc : N) (s : string) : option N :=
  match s with
  | EmptyString => Some acc
  | String c rest =>
      match Ascii.is_nat c with
      | Some d => digitsValue (10 * acc + N.of_nat d)%N rest
      | None => None
      end
  end.

(** A name is an array index when it is the decimal numeral, without
    leading zeros, of an integer below 2^32 - 1. *)
Definition arrayIndex (name : string) : option N :=
  match name with
  | EmptyString => None
  | String c rest =>
      if bool_decide (Ascii.is_nat c = Some 0%nat /\ rest ≠ EmptyString) then None
      else match digitsValue 0 name with
           | Some n => if (n <? 2 ^ 32 - 1)%N then Some n else None
           | None => None
           end
  end.

(** The place of a new own property among the others. *)
Fixpoint placeIndex {A} (index : N) (name : string) (a : A) (obj : list (string * A))
    : list (string * A) :=
  match obj with
  | [] => [(name, a)]
  | (k, v) :: rest =>
      match arrayIndex k with
      | Some i => if (index <? i)%N then (name, a) :: obj
                  else (k, v) :: placeIndex index name a rest
      | None => (name, a) :: obj
      end
  end.

Definition createProperty {A} (name : string) (a : A) (obj : list (string * A))
    : list (string * A) :=
  match arrayIndex name with
  | Some index => placeIndex index name a obj
  | None => obj ++ [(name, a)]
  end.

(** [array.forEach] with a body that may throw. *)
Fixpoint forEach {A B} (body : A -> B -> Completion A) (a : A) (l : list B) : Completion A :=
  match l with
  | [] => Normal a
  | x :: rest => a' ← body a x; forEach body a' rest
  end.

(** [if (!grouped[position]) grouped[position] = []; grouped[position].push(player)] *)
Definition pushPlayerJs (position : string) (p : Player) (grouped : Grouped)
    : Completion Grouped :=
  match getProperty position grouped with
  | Own _ => Normal (pushPlayer position p grouped)
  | Undefined => Normal (createProperty position [p] grouped)
  | Inherited => Throw "grouped[position].push is not a function"
  end.

Definition pushAllJs (player : Player) (grouped : Grouped) (positions : list string)
    : Completion Grouped :=
  forEach (fun grouped position => pushPlayerJs position player grouped) grouped positions.

Definition collectGroupsJs (players : list Player) : Completion Grouped :=
  forEach (fun grouped player => pushAllJs player grouped (eligiblePositions player))
          [] players.

Definition groupPlayersByPositionJs (players : list Player) : Completion Grouped :=
  grouped ← collectGroupsJs players;
  Normal (map (fun kv => (kv.1, sortByPoints kv.2)) grouped).

(** [if (playersByPosition[position]) bestPlayer = playersByPosition[position].find(...)] *)
Definition selectFixedJs (playersByPosition : Grouped) (usedPlayers : gset string)
    (position : string) : Completion (option Player) :=
  match getProperty position playersByPosition with
  | Own ps => Normal (List.find (isUnused usedPlayers) ps)
  | Undefined => Normal None
  | Inherited => Throw "playersByPosition[position].find is not a function"
  end.

(** RB, WR and TE are no members of [Object.prototype], and [Object.keys]
    gives own properties only: the two flexible branches read arrays. *)
Definition selectForJs (playersByPosition : Grouped) (usedPlayers : gset string)
    (position : string) : Completion (option Player) :=
  if decide (position = "FLEX") then Normal (selectFlex playersByPosition usedPlayers)
  else if decide (position = "SUPER_FLEX")
       then Normal (selectSuperFlex playersByPosition usedPlayers)
  else selectFixedJs playersByPosition usedPlayers position.

Definition fillSlotJs (playersByPosition : Grouped) (st : LineupState)
    (position : string) : Completion LineupState :=
  if decide (position = "BN") then Normal st
  else
    bestPlayer ← selectForJs playersByPosition (usedPlayers st) position;
    Normal
      match bestPlayer with
      | Some bestPlayer =>
          {| lineup := lineup st ++ [{| player := bestPlayer; lineupPosition := position |}];
             usedPlayers := usedPlayers st ∪ {[playerId bestPlayer]} |}
      | None => st
      end.

Definition optimizeLineupJs (playersByPosition : Grouped) (rosterPositions : list string)
    : Completion (list LineupEntry) :=
  st ← forEach (fillSlotJs playersByPosition) emptyLineup rosterPositions;
  Normal (lineup st).

(** The two steps as [execute] runs them on the pool. *)
Definition assignJs (players : list Player) (slots : list string)
    : Completion (list LineupEntry) :=
  playersByPosition ← groupPlayersByPositionJs players;
  optimizeLineupJs playersByPosition slots.

(** ** [findLineupChanges] *)

(** The values a property of a Sleeper player object holds. *)
Inductive JsValue : Type :=
| VNull
| VNumber (n : Z)
| VString (s : string)
| VStrings (l : list string).

(** [Object.values(player)], the properties in the order of the interface. *)
Definition objectValues (p : Sleeper.Player) : list JsValue :=
  [ VString (Sleeper.player_id p); VString (Sleeper.position p);
    VString (Sleeper.team p); VString (Sleeper.first_name p);
    VString (Sleeper.last_name p); VString (Sleeper.full_name p);
    VNumber (Sleeper.age p);
    match Sleeper.fantasy_positions p with
    | Some l => VStrings l
    | None => VNull
    end;
    VString (Sleeper.status p) ].

(** The accumulator of the [reduce]: a number until a string or an array
    has been added to it, a string from then on. *)
Inductive JsPrimitive : Type :=
| PNumber (n : Z)
| PString (s : string).

Definition primToString (s : JsPrimitive) : string :=
  match s with
  | PNumber n => pretty n
  | PString str => str
  end.

(** [Array.prototype.join(",")] *)
Fixpoint joinComma (l : list string) : string :=
  match l with
  | [] => ""
  | [x] => x
  | x :: rest => x +:+ "," +:+ joinComma rest
  end.

(** [p || 0]: null, [0] and the empty string are falsy, an array never is. *)
Definition orNumberZero (p : JsValue) : JsValue :=
  match p with
  | VNull => VNumber 0
  | VNumber n => VNumber n
  | VString s => if decide (s = "") then VNumber 0 else VString s
  | VStrings l => VStrings l
  end.

(** [s + v]: numeric addition of two numbers, otherwise concatenation of
    the operands' strings. *)
Definition jsAdd (s : JsPrimitive) (v : JsValue) : JsPrimitive :=
  match v with
  | VNull => match s with
             | PNumber a => PNumber a
             | PString str => PString (str +:+ "null")
             end
  | VNumber n => match s with
                 | PNumber a => PNumber (a + n)
                 | PString str => PString (str +:+ pretty n)
                 end
  | VString t => PString (primToString s +:+ t)
  | VStrings l => PString (primToString s +:+ joinComma l)
  end.

(** [Object.values(player).reduce((s, p) => s + (p || 0), 0)] *)
Definition sumOfValues (p : Sleeper.Player) : JsPrimitive :=
  foldl (fun s v => jsAdd s (orNumberZero v)) (PNumber 0) (objectValues p).

Record Change := {
  change_position : nat;
  current_playerId : string;
  current_name : string;
  suggested_playerId : string;
  suggested_name : string;
  suggested_projectedPointsGain : string
}.

#[global] Instance Change_eq_dec : EqDecision Change.
Proof. solve_decision. Defined.

(** Points in hundredths as the number they stand for. *)
Definition pointsValue (hundredths : Z) : Q := (inject_Z hundredths / inject_Z 100)%Q.

Section Diff.

(** ECMAScript's StringToNumber, applied when a string is an operand of
    [-]. *)
Variable StringToNumber : string -> JsNumber.

Definition toNumber (s : JsPrimitive) : JsNumber :=
  match s with
  | PNumber n => Finite (inject_Z n)
  | PString str => StringToNumber str
  end.

(** The subtrahend of [projectedPointsGain]. *)
Definition currentPoints (players : gmap string Sleeper.Player)
    (currentPlayerId : string) : JsNumber :=
  match players !! currentPlayerId with
  | Some currentPlayer => toNumber (sumOfValues currentPlayer)
  | None => Finite 0
  end.

(** The body of [currentStarters.forEach((currentPlayerId, index) => ...)]:
    the change pushed at [index], if any. *)
Definition changeAt (optimizedLineup : list LineupEntry)
    (players : gmap string Sleeper.Player)
    (index : nat) (currentPlayerId : string) : option Change :=
  let optimizedPlayerId := playerId ∘ player <$> optimizedLineup !! index in
  if decide (Some currentPlayerId ≠ optimizedPlayerId) then
    let currentPlayer := players !! currentPlayerId in
    match optimizedLineup !! index with
    | Some suggestedPlayer =>
        Some {| change_position := index;
                current_playerId := currentPlayerId;
                current_name :=
                  match currentPlayer with
                  | Some c => Sleeper.first_name c +:+ " " +:+ Sleeper.last_name c
                  | None => "Unknown"
                  end;
                suggested_playerId := playerId (player suggestedPlayer);
                suggested_name := name (player suggestedPlayer);
                suggested_projectedPointsGain :=
                  numberToFixed 1
                    (subFrom (pointsValue (projectedPoints (player suggestedPlayer)))
                             (currentPoints players currentPlayerId)) |}
    | None => None
    end
  else None.

Fixpoint changesFrom (index : nat) (currentStarters : list string)
    (optimizedLineup : list LineupEntry) (players : gmap string Sleeper.Player)
    : list Change :=
  match currentStarters with
  | [] => []
  | currentPlayerId :: rest =>
      match changeAt optimizedLineup players index currentPlayerId with
      | Some c => c :: changesFrom (S index) rest optimizedLineup players
      | None => changesFrom (S index) rest optimizedLineup players
      end
  end.

Definition findLineupChanges (currentStarters : list string)
    (optimizedLineup : list LineupEntry) (players : gmap string Sleeper.Player)
    : list Change :=
  changesFrom 0 currentStarters optimizedLineup players.

(** ** [execute], after the arguments are read *)

Record Network := {
  leagueResponse : FetchResult Sleeper.League;
  rostersResponse : FetchResult (list Sleeper.Roster);
  usersResponse : FetchResult (list Sleeper.User);
  playersResponse : FetchResult (gmap string Sleeper.Player);
  projectionResponse : string -> FetchResult (option Sleeper.Projection)
}.

Record Starter := {
  starter_playerId : string;
  starter_name : string;
  starter_position : string;
  starter_team : string;
  starter_projectedPoints : Z
}.

Record Result := {
  currentLineup_starters : list Starter;
  currentLineup_totalProjected : string;
  optimizedLineup_starters : list LineupEntry;
  optimizedLineup_totalProjected : string;
  analysis_projectedImprovement : string;
  analysis_isOptimal : bool;
  analysis_suggestedChanges : list Change;
  analysis_rosterPositions : list string
}.

(** The predicate of [rosters.find]. *)
Definition isMyRoster (config : Config) (leagueConfig : LeagueConfig)
    (userMap : gmap string Sleeper.User) (roster : Sleeper.Roster) : bool :=
  match userMap !! Sleeper.owner_id roster with
  | Some user =>
      bool_decide (Sleeper.display_name user = username config)
      || bool_decide (Sleeper.username user = username config)
      || bool_decide (Sleeper.display_name user = teamName leagueConfig)
      || bool_decide (Sleeper.username user = teamName leagueConfig)
  | None => false
  end.

Definition starterOf (players : gmap string Sleeper.Player)
    (playerProjections : gmap string Q) (playerId : string) : Starter :=
  let player := players !! playerId in
  let projectedPoints := orZero (playerProjections !! playerId) in
  {| starter_playerId := playerId;
     starter_name := match player with
                     | Some p => Sleeper.first_name p +:+ " " +:+ Sleeper.last_name p
                     | None => "Unknown"
                     end;
     starter_position := match player with
                         | Some p => orString (Some (Sleeper.position p)) "UNK"
                         | None => "UNK"
                         end;
     starter_team := match player with
                     | Some p => orString (Some (Sleeper.team p)) "UNK"
                     | None => "UNK"
                     end;
     starter_projectedPoints := roundTo2 projectedPoints |}.

(** [currentStarters.reduce((sum, playerId) => sum + (playerProjections.get(playerId) || 0), 0)] *)
Definition currentProjection (playerProjections : gmap string Q)
    (currentStarters : list string) : Q :=
  foldl (fun sum playerId => (sum + orZero (playerProjections !! playerId))%Q)
        0%Q currentStarters.

(** The statements of the [try] block once the four bodies are read. *)
Definition optimizeRoster (net : Network) (league : Sleeper.League)
    (myRoster : Sleeper.Roster) (players : gmap string Sleeper.Player)
    : Completion Result :=
  let rosterPositions := Sleeper.roster_positions league in
  projectionResults ←
    promiseAll
      (map (fun playerId =>
              projectedPoints ← projectedPointsOf (projectionResponse net playerId);
              Normal (playerId, projectedPoints))
           (Sleeper.players myRoster));
  let playerProjections := mapOfEntries projectionResults in
  let pool := playerPool players playerProjections (Sleeper.players myRoster) in
  playersByPosition ← groupPlayersByPositionJs pool;
  optimizedLineup ← optimizeLineupJs playersByPosition rosterPositions;
  let currentStarters := Sleeper.starters myRoster in
  let current := currentProjection playerProjections currentStarters in
  let optimal := pointsValue (optimalProjection optimizedLineup) in
  let changes := findLineupChanges currentStarters optimizedLineup players in
  Normal
    {| currentLineup_starters := map (starterOf players playerProjections) currentStarters;
       currentLineup_totalProjected := toFixed 1 current;
       optimizedLineup_starters := optimizedLineup;
       optimizedLineup_totalProjected := toFixed 1 optimal;
       analysis_projectedImprovement := toFixed 1 (optimal - current)%Q;
       analysis_isOptimal :=
         if Qlt_le_dec (Qabs (optimal - current)) (1 # 10) then true else false;
       analysis_suggestedChanges := changes;
       analysis_rosterPositions := rosterPositions |}.

(** From the four fetches to [if (!myRoster) throw ...]. *)
Definition fetchData (config : Config) (leagueConfig : LeagueConfig) (net : Network)
    : Completion (Sleeper.League * Sleeper.Roster * gmap string Sleeper.Player) :=
  leagueR ← leagueResponse net;
  rostersR ← rostersResponse net;
  usersR ← usersResponse net;
  playersR ← playersResponse net;
  if negb (ok leagueR) || negb (ok rostersR) || negb (ok usersR) || negb (ok playersR)
  then Throw "Failed to fetch lineup optimization data"
  else
    league ← json leagueR;
    rosters ← json rostersR;
    users ← json usersR;
    players ← json playersR;
    let userMap := mapOfEntries (map (fun user => (Sleeper.user_id user, user)) users) in
    match List.find (isMyRoster config leagueConfig userMap) rosters with
    | None => Throw ("Could not find roster for user: " +:+ username config)
    | Some myRoster => Normal (league, myRoster, players)
    end.

Definition executeTry (config : Config) (leagueConfig : LeagueConfig)
    (net : Network) : Completion Result :=
  data ← fetchData config leagueConfig net;
  optimizeRoster net data.1.1 data.1.2 data.2.

Definition execute (config : Config) (argsLeague : option string) (net : Network)
    : Completion Result :=
  match getLeagueConfig config argsLeague with
  | None =>
      Throw ("League configuration not found for: " +:+ default "undefined" argsLeague)
  | Some leagueConfig =>
      tryCatch (executeTry config leagueConfig net)
               (fun message => Throw ("Failed to optimize lineup: " +:+ message))
  end.

End Diff.

(** ** Notions used in the statements *)

Definition entryId (e : LineupEntry) : string := playerId (player e).

(** The identifiers of the players of a lineup, as the [usedPlayers] set. *)
Definition usedIds (l : list LineupEntry) : gset string := list_to_set (map entryId l).

Definition nonBench (rosterPositions : list string) : list string :=
  filter (fun position => position ≠ "BN") rosterPositions.

(** What a slot contributes to the lineup when [usedPlayers] are taken. *)
Definition slotEntries (playersByPosition : Grouped) (usedPlayers : gset string)
    (position : string) : list LineupEntry :=
  if decide (position = "BN") then []
  else match selectFor playersByPosition usedPlayers position with
       | Some bestPlayer => [{| player := bestPlayer; lineupPosition := position |}]
       | None => []
       end.

(** Descending by projected points. *)
Definition pointsDescending : list Player -> Prop :=
  StronglySorted (fun a b => projectedPoints b <= projectedPoints a).

(** The players of equal projected points, in the order of the list. *)
Definition withPoints (v : Z) (l : list Player) : list Player :=
  filter (fun p => projectedPoints p = v) l.

(** What ECMAScript asks of [Array.prototype.sort] with the comparator of
    [groupPlayersByPosition]: the result is ordered by the comparator and
    elements that compare equal keep their relative order. *)
Definition StableSort (sort : list Player -> list Player) : Prop :=
  forall l, pointsDescending (sort l) /\ forall v, withPoints v (sort l) = withPoints v l.

(** The members of the group of [position] in input order: a player is
    pushed once for every occurrence of [position] among its eligible
    positions. *)
Definition groupOf (position : string) (players : list Player) : list Player :=
  flat_map (fun p => map (fun _ => p) (filter (fun e => e = position) (eligiblePositions p)))
           players.

(** The tie-break law in the words of the specification: the highest
    projected points win, and of two players with exactly equal points the
    one appearing earlier.  [better a b] decides between an earlier choice
    [a] and a later choice [b]; [firstBest] is the choice in a list. *)
Definition better (a b : option Player) : option Player :=
  match a, b with
  | Some p, Some q => if (projectedPoints p <? projectedPoints q)%Z then Some q else Some p
  | Some p, None => Some p
  | None, _ => b
  end.
Arguments better : simpl never.

Fixpoint firstBest (l : list Player) : option Player :=
  match l with
  | [] => None
  | p :: rest => better (Some p) (firstBest rest)
  end.

(** The players pushed for a position so far. *)
Definition groupList (position : string) (grouped : Grouped) : list Player :=
  default [] (lookupGroup position grouped).

(** The position names in the order in which they are first seen. *)
Definition seeOne (seen : list string) (position : string) : list string :=
  if decide (position ∈ seen) then seen else seen ++ [position].

Definition seeAll (seen positions : list string) : list string :=
  foldl seeOne seen positions.

Definition firstSeen (positions : list string) : list string := seeAll [] positions.

Definition positionsSeen (players : list Player) : list string :=
  firstSeen (flat_map eligiblePositions players).

(** The positions a slot accepts, in the words of the specification. *)
Definition accepts (slot : string) (p : Player) : bool :=
  if decide (slot = "FLEX") then
    bool_decide (Exists (fun e => e ∈ flexEligible) (eligiblePositions p))
  else if decide (slot = "SUPER_FLEX") then
    bool_decide (eligiblePositions p ≠ [])
  else bool_decide (slot ∈ eligiblePositions p).

(** The eligible, unused players of the pool in input order, and the choice
    the tie-break law makes among them. *)
Definition candidates (players : list Player) (usedPlayers : gset string)
    (slot : string) : list Player :=
  filter (fun p => isUnused usedPlayers p && accepts slot p = true) players.

Definition inputOrderChoice (players : list Player) (usedPlayers : gset string)
    (slot : string) : option Player :=
  firstBest (candidates players usedPlayers slot).

(** The source data of a projection is missing or malformed. *)
Inductive SourceMissing : FetchResult (option Sleeper.Projection) -> Prop :=
| fetch_failed message :
    SourceMissing (Throw message)
| response_not_ok body :
    SourceMissing (Normal {| ok := false; json := body |})
| body_unreadable message :
    SourceMissing (Normal {| ok := true; json := Throw message |})
| body_null :
    SourceMissing (Normal {| ok := true; json := Normal None |})
| stats_absent :
    SourceMissing (Normal {| ok := true; json := Normal (Some {| Sleeper.stats := None |}) |})
| points_absent :
    SourceMissing
      (Normal {| ok := true;
                 json := Normal (Some {| Sleeper.stats := Some {| Sleeper.pts_ppr := None |} |}) |}).

(** StringToNumber on the strings that are not numeric literals; the
    scenarios below apply it to no others. *)
Definition nonNumeric : string -> JsNumber := fun _ => NaN.

(** ** Scenarios *)

Definition mkPlayer (id pos : string) (hundredths : Z) : Player :=
  {| playerId := id; name := id; position := pos; team := "FA"; status := "Active";
     projectedPoints := hundredths; eligiblePositions := [pos] |}.

Definition entry (p : Player) (slot : string) : LineupEntry :=
  {| player := p; lineupPosition := slot |}.

Definition QB1 : Player := mkPlayer "QB1" "QB" 2000.
Definition QB2 : Player := mkPlayer "QB2" "QB" 1000.
Definition RB1 : Player := mkPlayer "RB1" "RB" 1500.
Definition RB2 : Player := mkPlayer "RB2" "RB" 1200.
Definition RB3 : Player := mkPlayer "RB3" "RB" 800.
Definition WR1 : Player := mkPlayer "WR1" "WR" 1400.

(** Scenario A *)
Definition scenarioA_players : list Player := [QB1; RB1; RB2; WR1; RB3].
Definition scenarioA_slots : list string := ["QB"; "RB"; "RB"; "FLEX"; "BN"].
Definition scenarioA_lineup : list LineupEntry :=
  [entry QB1 "QB"; entry RB1 "RB"; entry RB2 "RB"; entry WR1 "FLEX"].

(** Scenario C: a TE slot and no tight end in the pool. *)
Definition scenarioC_players : list Player := [QB1; RB1; WR1].
Definition scenarioC_slots : list string := ["QB"; "TE"; "RB"; "BN"].

(** Scenario D *)
Definition sleeperPlayer (id pos first last : string) : Sleeper.Player :=
  {| Sleeper.player_id := id; Sleeper.position := pos; Sleeper.team := "KC";
     Sleeper.first_name := first; Sleeper.last_name := last;
     Sleeper.full_name := first +:+ " " +:+ last; Sleeper.age := 27;
     Sleeper.fantasy_positions := Some [pos]; Sleeper.status := "Active" |}.

Definition scenarioD_actual : list string := ["QB2"; "RB1"].
Definition scenarioD_optimal : list LineupEntry := [entry QB1 "QB"; entry RB1 "RB"].
Definition scenarioD_players : gmap string Sleeper.Player :=
  <["QB2" := sleeperPlayer "QB2" "QB" "Second" "Passer"]>
    (<["QB1" := sleeperPlayer "QB1" "QB" "First" "Passer"]>
       (<["RB1" := sleeperPlayer "RB1" "RB" "First" "Runner"]> ∅)).

(** Two players tied on points, the wide receiver first in the input. *)
Definition tied_players : list Player := [mkPlayer "WR1" "WR" 1000; mkPlayer "RB1" "RB" 1000].

(** A late wide receiver tied with a running back that comes before it. *)
Definition tied_superflex_players : list Player :=
  [mkPlayer "WR2" "WR" 500; mkPlayer "RB1" "RB" 1000; mkPlayer "WR1" "WR" 1000].

(** The projections [execute] works with: every fetch gives a value. *)
Definition projectionsOf (net : Network) (rosterPlayers : list string) : gmap string Q :=
  mapOfEntries
    (map (fun playerId =>
            (playerId,
             match projectedPointsOf (projectionResponse net playerId) with
             | Normal v => v
             | Throw _ => 0%Q
             end))
         rosterPlayers).

(** A configuration, and the one user of the sample leagues. *)
Definition sample_config : Config :=
  {| username := "manager";
     ROAD_TO_GLORY := {| id := "league-1"; teamName := "Team One" |};
     DYNASTY := {| id := "league-2"; teamName := "Team Two" |};
     defaultLeague := "ROAD_TO_GLORY" |}.

Definition okResponse {A} (a : A) : FetchResult A :=
  Normal {| ok := true; json := Normal a |}.

Definition projectionOfPoints (points : Q) : FetchResult (option Sleeper.Projection) :=
  okResponse (Some {| Sleeper.stats := Some {| Sleeper.pts_ppr := Some points |} |}).

Definition sample_users : list Sleeper.User :=
  [{| Sleeper.user_id := "u1"; Sleeper.username := "manager";
      Sleeper.display_name := "Manager" |}].

(** A league with a slot of no known kind and a player projected below
    zero. *)
Definition malformed_net : Network :=
  {| leagueResponse := okResponse {| Sleeper.roster_positions := ["QB"; "XYZ"; "RB"] |};
     rostersResponse :=
       okResponse [{| Sleeper.owner_id := "u1"; Sleeper.players := ["QB1"; "RB9"];
                      Sleeper.starters := ["QB1"; "RB9"] |}];
     usersResponse := okResponse sample_users;
     playersResponse :=
       okResponse (<["QB1" := sleeperPlayer "QB1" "QB" "First" "Passer"]>
                     (<["RB9" := sleeperPlayer "RB9" "RB" "Ninth" "Runner"]> ∅));
     projectionResponse := fun playerId =>
       if decide (playerId = "QB1") then projectionOfPoints (20 # 1)
       else projectionOfPoints (- (5 # 1)) |}.

(** The same league with a slot named as a member of [Object.prototype]. *)
Definition inherited_net : Network :=
  {| leagueResponse := okResponse {| Sleeper.roster_positions := ["QB"; "constructor"; "RB"] |};
     rostersResponse := rostersResponse malformed_net;
     usersResponse := usersResponse malformed_net;
     playersResponse := playersResponse malformed_net;
     projectionResponse := projectionResponse malformed_net |}.

(** Two quarterbacks whose projections differ in the third decimal. *)
Definition close_players : gmap string Sleeper.Player :=
  <["QBa" := sleeperPlayer "QBa" "QB" "Early" "Passer"]>
    (<["QBb" := sleeperPlayer "QBb" "QB" "Late" "Passer"]> ∅).

Definition close_projections : gmap string Q :=
  <["QBa" := (10001 # 1000)%Q]> (<["QBb" := (10004 # 1000)%Q]> ∅).

Definition swapped_projections : gmap string Q :=
  <["QBa" := (10004 # 1000)%Q]> (<["QBb" := (10001 # 1000)%Q]> ∅).

Definition close_roster : list string := ["QBa"; "QBb"].

(** Scenario D as a request: QB2 (10) and RB1 (15) start, QB1 (20) sits on
    the bench. *)
Definition scenarioD_net : Network :=
  {| leagueResponse := okResponse {| Sleeper.roster_positions := ["QB"; "RB"; "BN"] |};
     rostersResponse :=
       okResponse [{| Sleeper.owner_id := "u1"; Sleeper.players := ["QB1"; "QB2"; "RB1"];
                      Sleeper.starters := ["QB2"; "RB1"] |}];
     usersResponse := okResponse sample_users;
     playersResponse := okResponse scenarioD_players;
     projectionResponse := fun playerId =>
       if decide (playerId = "QB1") then projectionOfPoints (20 # 1)
       else if decide (playerId = "QB2") then projectionOfPoints (10 # 1)
       else projectionOfPoints (15 # 1) |}.

(** The string the values of QB2's player object add up to. *)
Definition scenarioD_sum : string := "0QB2QBKCSecondPasserSecond Passer27QBActive".

Definition scenarioD_change (gain : string) : Change :=
  {| change_position := 0;
     current_playerId := "QB2";
     current_name := "Second Passer";
     suggested_playerId := "QB1";
     suggested_name := "First Passer";
     suggested_projectedPointsGain := gain |}.

(** ** [getCurrentWeek] and the week of a request *)

(** [new Date('2024-09-05').getTime()]: midnight UTC, in milliseconds. *)
Definition seasonStart : Z := 1725494400000.

Definition weekMs : Z := 7 * 24 * 60 * 60 * 1000.

(** [now] is [new Date().getTime()].  Both operands of the division are
    integers, and [Math.floor] of their quotient is [Z.div]. *)
Definition getCurrentWeek (now : Z) : Z :=
  let weeksSinceStart := (now - seasonStart) / weekMs in
  Z.max 1 (Z.min 18 (weeksSinceStart + 1)).

(** [args.week || this.getCurrentWeek()]: a week of 0 is falsy. *)
Definition weekOf (argsWeek : option Z) (now : Z) : Z :=
  match argsWeek with
  | Some week => if decide (week = 0) then getCurrentWeek now else week
  | None => getCurrentWeek now
  end.

(** ** Notions used for the diff *)

(** The starter at [index] and the optimized entry at [index] both exist
    and are different players. *)
Definition differsAt (currentStarters : list string) (optimizedLineup : list LineupEntry)
    (index : nat) : bool :=
  match currentStarters !! index, optimizedLineup !! index with
  | Some currentPlayerId, Some suggested => bool_decide (currentPlayerId ≠ entryId suggested)
  | _, _ => false
  end.

(** ** The request handler of the server (the caller of [execute]) *)

(** [{ content: [{ type: "text", text }] }] *)
Record TextContent := {
  content_type : string;
  content_text : string
}.

Definition textResponse (text : string) : list TextContent :=
  [{| content_type := "text"; content_text := text |}].

(** The names of the other cases of the [switch]. *)
Definition otherToolNames : list string :=
  ["get_league_info"; "get_my_roster"; "get_my_matchup"; "get_available_players";
   "get_player_projections"; "get_matchup_projections"; "get_trending_players";
   "get_historical_scores"; "get_player_news"; "get_league_transactions";
   "get_nfl_state"].

Section Handler.

(** [JSON.stringify(result, null, 2)], StringToNumber, and what the
    [execute] of each of the other tools does with the arguments. *)
Variable stringify : Result -> string.
Variable StringToNumber : string -> JsNumber.
Variable otherTools : string -> Completion (list TextContent).

(** The [return] of [LineupOptimizerTool.execute]. *)
Definition executeResponse (config : Config) (argsLeague : option string) (net : Network)
    : Completion (list TextContent) :=
  result ← execute StringToNumber config argsLeague net;
  Normal (textResponse (stringify result)).

(** The [switch (name)] *)
Definition dispatch (config : Config) (name : string) (argsLeague : option string)
    (net : Network) : Completion (list TextContent) :=
  if decide (name = "optimize_lineup") then executeResponse config argsLeague net
  else if decide (name ∈ otherToolNames) then otherTools name
  else Throw ("Unknown tool: " +:+ name).

(** The handler of [CallToolRequestSchema], for a request whose arguments
    are an object; [argsLeague] is its [league]. *)
Definition callTool (config : Config) (name : string) (argsLeague : option string)
    (net : Network) : Completion (list TextContent) :=
  tryCatch (dispatch config name argsLeague net)
           (fun message => Normal (textResponse ("Error: " +:+ message))).

End Handler.

(** ** Notions used for the selection *)




(** A request whose roster fetch comes back with a status that is not ok. *)
Definition notOk_net : Network :=
  {| leagueResponse := leagueResponse scenarioD_net;
     rostersResponse := Normal {| ok := false; json := Throw "Unexpected token" |};
     usersResponse := usersResponse scenarioD_net;
     playersResponse := playersResponse scenarioD_net;
     projectionResponse := projectionResponse scenarioD_net |}.

(** ** Notions used for the plain objects *)

(** The order in which [Object.keys] lists properties created in the order
    of [names]: the array indices in ascending order (insertion sort by the
    numeric value), then the other names in the order of their creation. *)
Definition isIndex (name : string) : bool :=
  match arrayIndex name with
  | Some _ => true
  | None => false
  end.

Definition indexOf (name : string) : N := default 0%N (arrayIndex name).

Fixpoint insertIndex (name : string) (sorted : list string) : list string :=
  match sorted with
  | [] => [name]
  | k :: rest => if (indexOf name <? indexOf k)%N then name :: sorted
                 else k :: insertIndex name rest
  end.

Definition ascending (names : list string) : list string :=
  foldl (fun sorted name => insertIndex name sorted) [] names.

Definition ownKeysOrder (names : list string) : list string :=
  ascending (filter (fun name => isIndex name = true) names)
  ++ filter (fun name => isIndex name = false) names.

(** The players scanned for a slot when the groups are taken in the order
    [keys]. *)
Definition scannedBy (keys : list string) (slot : string) (players : list Player)
    : list Player :=
  if decide (slot = "FLEX") then
    groupOf "RB" players ++ groupOf "WR" players ++ groupOf "TE" players
  else if decide (slot = "SUPER_FLEX") then flat_map (fun k => groupOf k players) keys
  else groupOf slot players.

(** A read in [optimizeLineup] that goes to [Object.prototype]: the slot
    has a position of its own, which is no own property and the name of an
    inherited member. *)
Definition readsInherited (playersByPosition : Grouped) (slot : string) : Prop :=
  (slot ∉ ["BN"; "FLEX"; "SUPER_FLEX"])
  /\ lookupGroup slot playersByPosition = None
  /\ slot ∈ inheritedNames.

#[global] Instance readsInherited_dec playersByPosition slot :
  Decision (readsInherited playersByPosition slot).
Proof. unfold readsInherited. apply _. Defined.

(** A pool player has a member name of [Object.prototype] among the
    eligible positions. *)
Definition inheritedPosition (players : list Player) : Prop :=
  Exists (fun position => position ∈ inheritedNames) (flat_map eligiblePositions players).

#[global] Instance inheritedPosition_dec players : Decision (inheritedPosition players).
Proof. unfold inheritedPosition. apply _. Defined.

(** A slot with a position of its own is named as a member of
    [Object.prototype]. *)
Definition inheritedSlot (slots : list string) : Prop :=
  Exists (fun slot => (slot ∉ ["BN"; "FLEX"; "SUPER_FLEX"]) /\ slot ∈ inheritedNames) slots.

#[global] Instance inheritedSlot_dec slots : Decision (inheritedSlot slots).
Proof. unfold inheritedSlot. apply _. Defined.

(** No own property is named as a member of [Object.prototype]. *)
Definition plainKeys (grouped : Grouped) : Prop :=
  Forall (fun k => k ∉ inheritedNames) (map fst grouped).

(** * Properties *)

(** ** Formatting *)

Example toFixed_10 : toFixed 1 (10 # 1) = "10.0".
Proof. vm_compute. reflexivity. Qed.

Example toFixed_neg : toFixed 1 (- (1 # 25))%Q = "-0.0".
Proof. vm_compute. reflexivity. Qed.

Example toFixed_half : toFixed 2 (1 # 8) = "0.13" /\ toFixed 0 (5 # 2) = "3".
Proof. split; vm_compute; reflexivity. Qed.

Example toFixed_small : toFixed 2 (5 # 1000) = "0.01" /\ toFixed 2 (4 # 1000) = "0.00".
Proof. split; vm_compute; reflexivity. Qed.

Example toFixed_pad : toFixed 3 (5 # 1000) = "0.005" /\ toFixed 1 (1234 # 100) = "12.3".
Proof. split; vm_compute; reflexivity. Qed.

Example roundTo2_ex : roundTo2 (10004 # 1000) = 1000.
Proof. vm_compute. reflexivity. Qed.

(** ** The selection never returns a used player *)

Lemma consider_unused usedPlayers best p q :
  (forall b, best = Some b -> playerId b ∉ usedPlayers) ->
  consider usedPlayers best p = Some q -> playerId q ∉ usedPlayers.
Proof.
  intros Hbest. unfold consider, isUnused.
  destruct (bool_decide (playerId p ∉ usedPlayers)) eqn:Hp; simpl.
  - apply bool_decide_eq_true in Hp.
    destruct best as [b|]; [destruct (_ <? _)%Z|]; intros [= <-]; auto.
  - auto.
Qed.

Lemma scan_unused usedPlayers ps : forall best q,
  (forall b, best = Some b -> playerId b ∉ usedPlayers) ->
  foldl (consider usedPlayers) best ps = Some q -> playerId q ∉ usedPlayers.
Proof.
  induction ps as [|p ps IH]; simpl; intros best q Hbest Hq.
  - auto.
  - eapply IH; [|exact Hq]. intros b Hb. eapply consider_unused; eauto.
Qed.

Lemma selectFor_unused playersByPosition usedPlayers position p :
  selectFor playersByPosition usedPlayers position = Some p ->
  playerId p ∉ usedPlayers.
Proof.
  unfold selectFor. repeat case_decide.
  - unfold selectFlex.
    assert (Hgen : forall poss best q,
      (forall b, best = Some b -> playerId b ∉ usedPlayers) ->
      foldl (fun bestPlayer pos =>
               match lookupGroup pos playersByPosition with
               | Some ps => foldl (consider usedPlayers) bestPlayer ps
               | None => bestPlayer
               end) best poss = Some q -> playerId q ∉ usedPlayers).
    { induction poss as [|pos poss IH]; simpl; intros best q Hbest Hq; [auto|].
      eapply IH; [|exact Hq]. intros b Hb.
      destruct (lookupGroup pos playersByPosition); [|auto].
      eapply scan_unused; eauto. }
    apply Hgen. discriminate.
  - unfold selectSuperFlex.
    assert (Hgen : forall (g : Grouped) best q,
      (forall b, best = Some b -> playerId b ∉ usedPlayers) ->
      foldl (fun bestPlayer kv => foldl (consider usedPlayers) bestPlayer kv.2) best g = Some q ->
      playerId q ∉ usedPlayers).
    { induction g as [|kv g IH]; simpl; intros best q Hbest Hq; [auto|].
      eapply IH; [|exact Hq]. intros b Hb. eapply scan_unused; eauto. }
    apply Hgen. discriminate.
  - unfold selectFixed. destruct (lookupGroup position playersByPosition); [|discriminate].
    intros Hf. apply find_some in Hf as [_ Hf]. unfold isUnused in Hf.
    by apply bool_decide_eq_true in Hf.
Qed.

(** ** The loop over the roster positions *)

Lemma fillSlot_lineup playersByPosition st position :
  lineup (fillSlot playersByPosition st position)
  = lineup st ++ slotEntries playersByPosition (usedPlayers st) position.
Proof.
  unfold fillSlot, slotEntries. case_decide; [by rewrite app_nil_r|].
  destruct (selectFor _ _ _); simpl; [done | by rewrite app_nil_r].
Qed.

Lemma fillSlot_used playersByPosition st position :
  usedPlayers st = usedIds (lineup st) ->
  usedPlayers (fillSlot playersByPosition st position)
  = usedIds (lineup (fillSlot playersByPosition st position)).
Proof.
  intros Hused. unfold fillSlot. case_decide; [done|].
  destruct (selectFor _ _ _) as [p|]; simpl; [|done].
  unfold usedIds. rewrite map_app, list_to_set_app_L. simpl.
  rewrite (right_id_L ∅ (∪)). by rewrite Hused.
Qed.

Lemma fill_used playersByPosition rosterPositions : forall st,
  usedPlayers st = usedIds (lineup st) ->
  usedPlayers (foldl (fillSlot playersByPosition) st rosterPositions)
  = usedIds (lineup (foldl (fillSlot playersByPosition) st rosterPositions)).
Proof.
  induction rosterPositions as [|position rest IH]; simpl; intros st Hst; [done|].
  apply IH. by apply fillSlot_used.
Qed.

Lemma optimizeLineup_used playersByPosition rosterPositions :
  usedPlayers (foldl (fillSlot playersByPosition) emptyLineup rosterPositions)
  = usedIds (optimizeLineup playersByPosition rosterPositions).
Proof. apply fill_used. unfold usedIds. simpl. done. Qed.

Lemma optimizeLineup_snoc playersByPosition rosterPositions position :
  optimizeLineup playersByPosition (rosterPositions ++ [position])
  = optimizeLineup playersByPosition rosterPositions
    ++ slotEntries playersByPosition
         (usedIds (optimizeLineup playersByPosition rosterPositions)) position.
Proof.
  unfold optimizeLineup at 1. rewrite foldl_app. simpl.
  rewrite fillSlot_lineup, optimizeLineup_used. done.
Qed.

Lemma slotEntries_ids playersByPosition usedPlayers position :
  Forall (fun e => entryId e ∉ usedPlayers) (slotEntries playersByPosition usedPlayers position).
Proof.
  unfold slotEntries. case_decide; [constructor|].
  destruct (selectFor _ _ _) as [p|] eqn:Hsel; constructor; [|constructor].
  unfold entryId. simpl. eapply selectFor_unused; eauto.
Qed.

Lemma slotEntries_length playersByPosition usedPlayers position :
  (length (slotEntries playersByPosition usedPlayers position)
   <= length (nonBench [position]))%nat.
Proof.
  unfold slotEntries, nonBench. rewrite filter_cons, filter_nil.
  case_decide; destruct (decide (position ≠ "BN")); try done; simpl; try lia.
  destruct (selectFor _ _ _); simpl; lia.
Qed.

Lemma slotEntries_positions playersByPosition usedPlayers position :
  map lineupPosition (slotEntries playersByPosition usedPlayers position)
  `sublist_of` nonBench [position].
Proof.
  unfold slotEntries, nonBench. rewrite filter_cons, filter_nil.
  case_decide; destruct (decide (position ≠ "BN")); try done; simpl.
  destruct (selectFor _ _ _); simpl; [done | by apply sublist_nil_l].
Qed.

Lemma nonBench_app l1 l2 : nonBench (l1 ++ l2) = nonBench l1 ++ nonBench l2.
Proof. unfold nonBench. apply filter_app. Qed.

(** C7: whatever the position groups and the roster positions, no player
    identifier occurs twice among the entries of the optimized lineup, and
    the lineup has at most as many entries as there are roster positions
    other than BN. *)
Theorem no_double_booking playersByPosition rosterPositions :
  NoDup (map entryId (optimizeLineup playersByPosition rosterPositions))
  /\ (length (optimizeLineup playersByPosition rosterPositions)
      <= length (nonBench rosterPositions))%nat.
Proof.
  induction rosterPositions as [|position rest [IHdup IHlen]] using rev_ind.
  - split; [constructor | simpl; lia].
  - rewrite optimizeLineup_snoc, nonBench_app, map_app, !length_app. split.
    + apply NoDup_app. split; [done|]. split.
      * intros id Hin Hin'. apply list_elem_of_fmap in Hin' as (e & -> & He).
        pose proof (slotEntries_ids playersByPosition
          (usedIds (optimizeLineup playersByPosition rest)) position) as Hall.
        rewrite Forall_forall in Hall. apply (Hall e He).
        unfold usedIds. by apply elem_of_list_to_set.
      * unfold slotEntries. case_decide; [constructor|].
        destruct (selectFor _ _ _); simpl; [apply NoDup_singleton | constructor].
    + pose proof (slotEntries_length playersByPosition
        (usedIds (optimizeLineup playersByPosition rest)) position). lia.
Qed.

Lemma optimizeLineup_positions playersByPosition rosterPositions :
  map lineupPosition (optimizeLineup playersByPosition rosterPositions)
  `sublist_of` nonBench rosterPositions.
Proof.
  induction rosterPositions as [|position rest IH] using rev_ind.
  - by apply sublist_nil_l.
  - rewrite optimizeLineup_snoc, nonBench_app, map_app.
    apply sublist_app; [done | apply slotEntries_positions].
Qed.

(** C2 (as stated) fails: with a TE slot and no tight end in the pool the
    lineup has two entries for three roster positions other than BN, and
    none of them is for the TE slot. *)
Lemma exhausted_slot_has_no_entry :
  assign scenarioC_players scenarioC_slots = [entry QB1 "QB"; entry RB1 "RB"]
  /\ length (assign scenarioC_players scenarioC_slots) ≠ length (nonBench scenarioC_slots)
  /\ "TE" ∉ map lineupPosition (assign scenarioC_players scenarioC_slots).
Proof.
  assert (assign scenarioC_players scenarioC_slots = [entry QB1 "QB"; entry RB1 "RB"])
    as Hrun by (vm_compute; reflexivity).
  rewrite Hrun. split; [done|]. split.
  - vm_compute. discriminate.
  - simpl. intros Hin. repeat (apply elem_of_cons in Hin as [Hin|Hin]; [discriminate|]).
    by apply elem_of_nil in Hin.
Qed.

(** ** The diff *)

Section DiffProperties.

Variable StringToNumber : string -> JsNumber.

Lemma changeAt_suggested optimizedLineup players index currentPlayerId c :
  changeAt StringToNumber optimizedLineup players index currentPlayerId = Some c ->
  change_position c = index
  /\ exists suggested,
       optimizedLineup !! index = Some suggested
       /\ suggested_playerId c = entryId suggested
       /\ current_playerId c = currentPlayerId
       /\ currentPlayerId ≠ entryId suggested.
Proof.
  unfold changeAt. case_decide as Hne; [|discriminate].
  destruct (optimizedLineup !! index) as [suggested|] eqn:Hlook; [|discriminate].
  intros [= <-]. simpl. split; [done|]. exists suggested.
  repeat split; try done. intros ->. by apply Hne.
Qed.

Lemma changesFrom_suggested currentStarters optimizedLineup players : forall index,
  Forall (fun c => exists suggested,
                     optimizedLineup !! change_position c = Some suggested
                     /\ suggested_playerId c = entryId suggested)
         (changesFrom StringToNumber index currentStarters optimizedLineup players).
Proof.
  induction currentStarters as [|currentPlayerId rest IH]; simpl; intros index.
  - constructor.
  - destruct (changeAt _ _ _ _ _) as [c|] eqn:Hc; [|apply IH].
    constructor; [|apply IH].
    apply changeAt_suggested in Hc as (-> & suggested & ? & ? & _). eauto.
Qed.

(** C10: every change the diff emits sits at an index at which the
    optimized lineup has an entry, the suggested player; so no change has
    an index at or beyond the length of the optimized lineup, whatever the
    actual starter there. *)
Theorem changes_only_where_suggested currentStarters optimizedLineup players :
  Forall (fun c => (exists suggested,
                      optimizedLineup !! change_position c = Some suggested
                      /\ suggested_playerId c = entryId suggested)
                   /\ (change_position c < length optimizedLineup)%nat)
         (findLineupChanges StringToNumber currentStarters optimizedLineup players).
Proof.
  unfold findLineupChanges.
  eapply Forall_impl; [apply changesFrom_suggested|].
  intros c (suggested & Hlook & Hid). split; [eauto|].
  by apply lookup_lt_Some in Hlook.
Qed.

End DiffProperties.

(** Starters beyond the end of the optimized lineup produce no change. *)
Example no_change_beyond_optimal :
  findLineupChanges nonNumeric ["QB1"; "RB1"; "WR9"; "TE9"] scenarioD_optimal ∅ = [].
Proof. vm_compute. reflexivity. Qed.

(** ** Scenario A *)

(** C9: with the slots QB, RB, RB, FLEX, BN and the players QB1 (20),
    RB1 (15), RB2 (12), WR1 (14) and RB3 (8), given in any order, the
    lineup is QB1 at QB, RB1 and RB2 at the RB slots and WR1 at FLEX, and
    its total is 61. *)
Theorem scenario_A players :
  players ≡ₚ scenarioA_players ->
  assign players scenarioA_slots = scenarioA_lineup
  /\ optimalProjection (assign players scenarioA_slots) = 6100
  /\ pointsValue 6100 == 61.
Proof.
  intros Hperm.
  assert (Hall : Forall (fun pool => assign pool scenarioA_slots = scenarioA_lineup)
                        (permutations scenarioA_players)).
  { apply (bool_decide_unpack _). vm_compute. exact I. }
  rewrite Forall_forall in Hall.
  assert (Hrun : assign players scenarioA_slots = scenarioA_lineup).
  { apply Hall. apply permutations_Permutation. by symmetry. }
  rewrite Hrun. split; [done|]. split; vm_compute; reflexivity.
Qed.

Lemma scenario_A_witness :
  scenarioA_players ≡ₚ scenarioA_players
  /\ assign scenarioA_players scenarioA_slots = scenarioA_lineup
  /\ optimalProjection (assign scenarioA_players scenarioA_slots) = 6100
  /\ pointsValue 6100 == 61.
Proof. split; [reflexivity | apply (scenario_A scenarioA_players); reflexivity]. Defined.

(** ** Projections *)

Lemma projectedPointsOf_normal fetched :
  exists v, projectedPointsOf fetched = Normal v.
Proof.
  unfold projectedPointsOf, projectionTry.
  destruct fetched as [[[] [[d|]|]]|]; simpl; eauto.
Qed.

(** C5: when the source data of a player's projection is missing or
    malformed (the fetch fails, the response is not ok, the body cannot be
    read or is null, the stats or the points are absent) the projection is
    0; and whatever the fetch gives, the projection is a value and no
    error reaches the caller. *)
Theorem missing_projection_is_zero fetched :
  SourceMissing fetched ->
  projectedPointsOf fetched = Normal 0%Q
  /\ forall other, exists v, projectedPointsOf other = Normal v.
Proof.
  intros Hmissing. split; [|apply projectedPointsOf_normal].
  destruct Hmissing; reflexivity.
Qed.

Lemma missing_projection_is_zero_witness :
  SourceMissing (Normal {| ok := true; json := Normal (Some {| Sleeper.stats := None |}) |})
  /\ projectedPointsOf (Normal {| ok := true; json := Normal (Some {| Sleeper.stats := None |}) |})
     = Normal 0%Q.
Proof.
  split; [constructor|].
  apply (missing_projection_is_zero _ stats_absent).
Defined.

Section ExecuteProperties.

Variable StringToNumber : string -> JsNumber.

Lemma projections_all net rosterPlayers :
  promiseAll
    (map (fun playerId =>
            projectedPoints ← projectedPointsOf (projectionResponse net playerId);
            Normal (playerId, projectedPoints))
         rosterPlayers)
  = Normal (map (fun playerId =>
                   (playerId,
                    match projectedPointsOf (projectionResponse net playerId) with
                    | Normal v => v
                    | Throw _ => 0%Q
                    end))
                rosterPlayers).
Proof.
  induction rosterPlayers as [|playerId rest IH]; simpl; [done|].
  destruct (projectedPointsOf_normal (projectionResponse net playerId)) as [v ->].
  simpl. rewrite IH. done.
Qed.

Lemma optimizeRoster_assign net league myRoster players lineup :
  assignJs (playerPool players (projectionsOf net (Sleeper.players myRoster))
                       (Sleeper.players myRoster))
           (Sleeper.roster_positions league) = Normal lineup ->
  exists result,
    optimizeRoster StringToNumber net league myRoster players = Normal result
    /\ optimizedLineup_starters result = lineup
    /\ analysis_suggestedChanges result
       = findLineupChanges StringToNumber (Sleeper.starters myRoster) lineup players.
Proof.
  unfold optimizeRoster, assignJs, projectionsOf. rewrite projections_all. simpl.
  destruct (groupPlayersByPositionJs _) as [playersByPosition|]; simpl; [|discriminate].
  destruct (optimizeLineupJs _ _) as [optimizedLineup|]; simpl; [|discriminate].
  intros [= <-]. eauto.
Qed.

Lemma optimizeRoster_lineup net league myRoster players result :
  optimizeRoster StringToNumber net league myRoster players = Normal result ->
  assignJs (playerPool players (projectionsOf net (Sleeper.players myRoster))
                       (Sleeper.players myRoster))
           (Sleeper.roster_positions league)
  = Normal (optimizedLineup_starters result).
Proof.
  unfold optimizeRoster, assignJs, projectionsOf. rewrite projections_all. simpl.
  destruct (groupPlayersByPositionJs _) as [playersByPosition|]; simpl; [|discriminate].
  destruct (optimizeLineupJs _ _) as [optimizedLineup|]; simpl; [|discriminate].
  by intros [= <-].
Qed.


Lemma execute_fetched config argsLeague leagueConfig net league myRoster players :
  getLeagueConfig config argsLeague = Some leagueConfig ->
  fetchData config leagueConfig net = Normal (league, myRoster, players) ->
  execute StringToNumber config argsLeague net
  = tryCatch (optimizeRoster StringToNumber net league myRoster players)
             (fun message => Throw ("Failed to optimize lineup: " +:+ message)).
Proof.
  intros Hconfig Hdata. unfold execute, executeTry. by rewrite Hconfig, Hdata.
Qed.

End ExecuteProperties.


(** ** Rounding *)

Lemma makePlayer_rounded players projections1 projections2 playerId :
  roundTo2 (orZero (projections1 !! playerId)) = roundTo2 (orZero (projections2 !! playerId)) ->
  makePlayer players projections1 playerId = makePlayer players projections2 playerId.
Proof.
  intros Hround. unfold makePlayer. destruct (players !! playerId); [|done].
  by rewrite Hround.
Qed.

Lemma playerPool_rounded players projections1 projections2 rosterPlayers :
  Forall (fun playerId =>
            roundTo2 (orZero (projections1 !! playerId))
            = roundTo2 (orZero (projections2 !! playerId))) rosterPlayers ->
  playerPool players projections1 rosterPlayers = playerPool players projections2 rosterPlayers.
Proof.
  intros Hall. unfold playerPool. f_equal.
  induction Hall as [|playerId rest Hround _ IH]; [done|].
  change (omap ?f (playerId :: rest))
    with (match f playerId with Some p => p :: omap f rest | None => omap f rest end).
  by rewrite (makePlayer_rounded _ _ _ _ Hround), IH.
Qed.

(** C6 (as stated) fails: QBb is projected at 10.004 and QBa at 10.001; the
    pool holds both at 10.00, and the QB slot goes to QBa, the first in the
    roster, although the full-precision projection of QBb is higher. *)
Lemma rounding_ties_the_pool :
  (orZero (close_projections !! "QBa") < orZero (close_projections !! "QBb"))%Q
  /\ map (fun p => (playerId p, projectedPoints p))
         (playerPool close_players close_projections close_roster)
     = [("QBa", 1000); ("QBb", 1000)]
  /\ map entryId (assign (playerPool close_players close_projections close_roster) ["QB"])
     = ["QBa"].
Proof. split; [|split]; vm_compute; reflexivity. Qed.

(** C6 (amended): the projections are rounded to two decimals when the pool
    is built, before the players are grouped, sorted and selected: the
    points of every pool player are the rounded projection of that player.
    The lineup depends on the projections through the rounded values only,
    so two projection tables that agree after rounding give the same pool
    and the same lineup: projections that round to the same value tie. *)
Theorem lineup_uses_rounded_points players projections1 projections2 rosterPlayers slots :
  Forall (fun playerId =>
            roundTo2 (orZero (projections1 !! playerId))
            = roundTo2 (orZero (projections2 !! playerId))) rosterPlayers ->
  Forall (fun p => playerId p ∈ rosterPlayers
                   /\ projectedPoints p = roundTo2 (orZero (projections1 !! playerId p)))
         (playerPool players projections1 rosterPlayers)
  /\ playerPool players projections1 rosterPlayers
     = playerPool players projections2 rosterPlayers
  /\ assign (playerPool players projections1 rosterPlayers) slots
     = assign (playerPool players projections2 rosterPlayers) slots
  /\ assignJs (playerPool players projections1 rosterPlayers) slots
     = assignJs (playerPool players projections2 rosterPlayers) slots.
Proof.
  intros Hall. split; [|split; [|split]].
  - unfold playerPool. apply Forall_forall. intros p Hp.
    apply list_elem_of_filter in Hp as [_ Hp].
    apply list_elem_of_omap in Hp as (playerId & Hin & Hmake).
    unfold makePlayer in Hmake.
    destruct (players !! playerId); [|discriminate]. by injection Hmake as <-.
  - by apply playerPool_rounded.
  - by rewrite (playerPool_rounded _ _ _ _ Hall).
  - by rewrite (playerPool_rounded _ _ _ _ Hall).
Qed.

Lemma lineup_uses_rounded_points_witness :
  Forall (fun playerId =>
            roundTo2 (orZero (close_projections !! playerId))
            = roundTo2 (orZero (swapped_projections !! playerId))) close_roster
  /\ assign (playerPool close_players close_projections close_roster) ["QB"]
     = assign (playerPool close_players swapped_projections close_roster) ["QB"].
Proof.
  assert (Hall : Forall (fun playerId =>
            roundTo2 (orZero (close_projections !! playerId))
            = roundTo2 (orZero (swapped_projections !! playerId))) close_roster).
  { repeat constructor. }
  split; [exact Hall|].
  apply (lineup_uses_rounded_points close_players close_projections swapped_projections
           close_roster ["QB"] Hall).
Defined.

(** ** The sort *)

Lemma insertSorted_elem p q l : q ∈ insertSorted p l <-> q = p \/ q ∈ l.
Proof.
  induction l as [|x l IH]; simpl.
  - rewrite list_elem_of_singleton, elem_of_nil. tauto.
  - destruct (comesAfter p x); rewrite !elem_of_cons; [rewrite IH|]; tauto.
Qed.

Lemma insertSorted_descending p l :
  pointsDescending l -> pointsDescending (insertSorted p l).
Proof.
  unfold pointsDescending.
  induction 1 as [|x l Hsorted IH Hall]; simpl.
  - repeat constructor.
  - unfold comesAfter.
    destruct (Z.ltb_spec (projectedPoints p) (projectedPoints x)) as [Hlt|Hge].
    + constructor; [done|]. apply Forall_forall. intros q Hq.
      apply insertSorted_elem in Hq as [->|Hq]; [lia|].
      rewrite Forall_forall in Hall. by apply Hall.
    + constructor; [by constructor|]. constructor; [done|].
      eapply Forall_impl; [exact Hall|]. simpl. intros. lia.
Qed.

Lemma withPoints_insertSorted v p l :
  withPoints v (insertSorted p l) = withPoints v (p :: l).
Proof.
  unfold withPoints. induction l as [|x l IH]; simpl; [done|].
  unfold comesAfter.
  destruct (Z.ltb_spec (projectedPoints p) (projectedPoints x)) as [Hlt|Hge]; [|done].
  rewrite (filter_cons _ x), IH, !filter_cons.
  repeat case_decide; try done; lia.
Qed.

Lemma sortByPoints_descending l : pointsDescending (sortByPoints l).
Proof.
  induction l as [|p l IH]; simpl; [constructor | by apply insertSorted_descending].
Qed.

Lemma withPoints_sortByPoints v l : withPoints v (sortByPoints l) = withPoints v l.
Proof.
  induction l as [|p l IH]; simpl; [done|].
  rewrite withPoints_insertSorted. unfold withPoints in *. by rewrite !filter_cons, IH.
Qed.

Lemma sortByPoints_StableSort : StableSort sortByPoints.
Proof.
  intros l. split; [apply sortByPoints_descending | intros; apply withPoints_sortByPoints].
Qed.

Lemma insertBehind_elem p q l : q ∈ insertBehind p l <-> q = p \/ q ∈ l.
Proof.
  induction l as [|x l IH]; simpl.
  - rewrite list_elem_of_singleton, elem_of_nil. tauto.
  - destruct (comesAfter x p); rewrite !elem_of_cons; [|rewrite IH]; tauto.
Qed.

Lemma insertBehind_descending p l :
  pointsDescending l -> pointsDescending (insertBehind p l).
Proof.
  unfold pointsDescending.
  induction 1 as [|x l Hsorted IH Hall]; simpl.
  - repeat constructor.
  - unfold comesAfter.
    destruct (Z.ltb_spec (projectedPoints x) (projectedPoints p)) as [Hlt|Hge].
    + constructor; [by constructor|]. constructor; [lia|].
      eapply Forall_impl; [exact Hall|]. simpl. intros. lia.
    + constructor; [done|]. apply Forall_forall. intros q Hq.
      apply insertBehind_elem in Hq as [->|Hq]; [lia|].
      rewrite Forall_forall in Hall. by apply Hall.
Qed.

Lemma withPoints_below v p l :
  Forall (fun q => projectedPoints q < projectedPoints p) l ->
  v = projectedPoints p -> withPoints v l = [].
Proof.
  intros Hall ->. unfold withPoints. induction Hall as [|q l Hq _ IH]; [done|].
  rewrite filter_cons, IH. case_decide; [lia | done].
Qed.

Lemma withPoints_insertBehind v p l :
  pointsDescending l ->
  withPoints v (insertBehind p l) = withPoints v (l ++ [p]).
Proof.
  unfold pointsDescending.
  induction 1 as [|x l Hsorted IH Hall]; simpl; [done|].
  unfold comesAfter.
  destruct (Z.ltb_spec (projectedPoints x) (projectedPoints p)) as [Hlt|Hge].
  - change (x :: l ++ [p]) with ((x :: l) ++ [p]).
    assert (Hbelow : Forall (fun q => projectedPoints q < projectedPoints p) (x :: l)).
    { constructor; [done|]. eapply Forall_impl; [exact Hall|]. simpl. intros. lia. }
    pose proof (withPoints_below v p (x :: l) Hbelow) as Hnone.
    unfold withPoints in *. rewrite (filter_cons _ p), filter_app, (filter_cons _ p []), filter_nil.
    case_decide as Hv; [|by rewrite app_nil_r].
    by rewrite Hnone.
  - unfold withPoints in *. by rewrite !filter_cons, IH.
Qed.

Lemma sortFromLeft_spec l : forall sorted,
  pointsDescending sorted ->
  pointsDescending (foldl (fun sorted p => insertBehind p sorted) sorted l)
  /\ forall v, withPoints v (foldl (fun sorted p => insertBehind p sorted) sorted l)
               = withPoints v (sorted ++ l).
Proof.
  induction l as [|p l IH]; simpl; intros sorted Hsorted.
  - by rewrite app_nil_r.
  - destruct (IH (insertBehind p sorted) (insertBehind_descending p sorted Hsorted))
      as [Hdesc Hclasses].
    split; [done|]. intros v. rewrite Hclasses.
    unfold withPoints. rewrite filter_app. fold (withPoints v (insertBehind p sorted)).
    rewrite withPoints_insertBehind by done. unfold withPoints.
    by rewrite <- filter_app, <- app_assoc.
Qed.

Lemma sortFromLeft_StableSort : StableSort sortFromLeft.
Proof.
  intros l. unfold sortFromLeft.
  destruct (sortFromLeft_spec l []) as [Hdesc Hclasses]; [constructor|]. done.
Qed.

(** A list in descending order is determined by its classes of equal
    points. *)
Lemma descending_unique l1 : forall l2,
  pointsDescending l1 -> pointsDescending l2 ->
  (forall v, withPoints v l1 = withPoints v l2) -> l1 = l2.
Proof.
  unfold pointsDescending, withPoints.
  induction l1 as [|x l1 IH]; intros l2 Hs1 Hs2 Hclasses.
  - destruct l2 as [|y l2]; [done|].
    specialize (Hclasses (projectedPoints y)). rewrite filter_nil, filter_cons in Hclasses.
    by case_decide.
  - destruct l2 as [|y l2].
    { specialize (Hclasses (projectedPoints x)). rewrite filter_nil, filter_cons in Hclasses.
      by case_decide. }
    apply StronglySorted_inv in Hs1 as [Hs1 Hx], Hs2 as [Hs2 Hy].
    rewrite Forall_forall in Hx, Hy.
    assert (Hyx : projectedPoints y <= projectedPoints x).
    { assert (y ∈ x :: l1) as Hin.
      { assert (y ∈ filter (fun p => projectedPoints p = projectedPoints y) (x :: l1)) as Hin.
        { rewrite (Hclasses (projectedPoints y)), filter_cons.
          case_decide; [left | done]. }
        by apply list_elem_of_filter in Hin as [_ Hin]. }
      apply elem_of_cons in Hin as [->|Hin]; [lia | by apply Hx]. }
    assert (Hxy : projectedPoints x <= projectedPoints y).
    { assert (x ∈ y :: l2) as Hin.
      { assert (x ∈ filter (fun p => projectedPoints p = projectedPoints x) (y :: l2)) as Hin.
        { rewrite <- (Hclasses (projectedPoints x)), filter_cons.
          case_decide; [left | done]. }
        by apply list_elem_of_filter in Hin as [_ Hin]. }
      apply elem_of_cons in Hin as [->|Hin]; [lia | by apply Hy]. }
    assert (x = y) as ->.
    { specialize (Hclasses (projectedPoints x)). rewrite !filter_cons in Hclasses.
      repeat case_decide; try lia. by injection Hclasses. }
    f_equal. apply IH; [done | done |].
    intros v. specialize (Hclasses v). rewrite !filter_cons in Hclasses.
    case_decide; [by injection Hclasses | done].
Qed.

Lemma StableSort_unique sort l : StableSort sort -> sort l = sortByPoints l.
Proof.
  intros Hsort. destruct (Hsort l) as [Hdesc Hclasses].
  apply descending_unique; [done | apply sortByPoints_descending |].
  intros v. by rewrite Hclasses, withPoints_sortByPoints.
Qed.

(** C8: two runs on the same player pool and the same slot list give the
    same lineup, entry by entry, whichever sort each run uses, provided it
    orders by the comparator and keeps equal elements in place as
    [Array.prototype.sort] must. *)
Theorem assignment_is_deterministic sort1 sort2 players1 players2 slots1 slots2 :
  StableSort sort1 -> StableSort sort2 ->
  players1 = players2 -> slots1 = slots2 ->
  optimizeLineup (groupPlayersByPositionWith sort1 players1) slots1
  = optimizeLineup (groupPlayersByPositionWith sort2 players2) slots2.
Proof.
  intros Hsort1 Hsort2 <- <-. f_equal. unfold groupPlayersByPositionWith.
  apply map_ext. intros [k ps]. simpl.
  by rewrite (StableSort_unique sort1), (StableSort_unique sort2).
Qed.

Lemma assignment_is_deterministic_witness :
  StableSort sortByPoints /\ StableSort sortFromLeft
  /\ optimizeLineup (groupPlayersByPositionWith sortByPoints tied_superflex_players)
                    ["WR"; "SUPER_FLEX"; "FLEX"]
     = optimizeLineup (groupPlayersByPositionWith sortFromLeft tied_superflex_players)
                      ["WR"; "SUPER_FLEX"; "FLEX"].
Proof.
  split; [exact sortByPoints_StableSort|]. split; [exact sortFromLeft_StableSort|].
  exact (assignment_is_deterministic sortByPoints sortFromLeft
           tied_superflex_players tied_superflex_players
           ["WR"; "SUPER_FLEX"; "FLEX"] ["WR"; "SUPER_FLEX"; "FLEX"]
           sortByPoints_StableSort sortFromLeft_StableSort eq_refl eq_refl).
Defined.

(** ** The tie-break *)

Lemma better_assoc a b c : better a (better b c) = better (better a b) c.
Proof.
  destruct a as [p|], b as [q|], c as [r|]; unfold better; try done.
  - destruct (Z.ltb_spec (projectedPoints q) (projectedPoints r)),
             (Z.ltb_spec (projectedPoints p) (projectedPoints q));
      repeat match goal with
             | |- context [(?x <? ?y)%Z] => destruct (Z.ltb_spec x y)
             end; try done; lia.
  - by destruct (_ <? _)%Z.
Qed.

Lemma better_none_r a : better a None = a.
Proof. by destruct a. Qed.

Lemma better_idem p b : better (Some p) (better (Some p) b) = better (Some p) b.
Proof.
  rewrite better_assoc. f_equal. unfold better. by rewrite Z.ltb_irrefl.
Qed.

Lemma firstBest_app l1 l2 : firstBest (l1 ++ l2) = better (firstBest l1) (firstBest l2).
Proof.
  induction l1 as [|p l1 IH]; simpl; [done|]. by rewrite IH, better_assoc.
Qed.

Lemma firstBest_elem l p : firstBest l = Some p -> p ∈ l.
Proof.
  revert p. induction l as [|x l IH]; simpl; intros p; [discriminate|].
  destruct (firstBest l) as [q|]; unfold better.
  - destruct (_ <? _)%Z; intros [= <-]; [right; by apply IH | left].
  - intros [= <-]. left.
Qed.

(** In a descending list the first element is the best. *)
Lemma firstBest_descending p l :
  Forall (fun q => projectedPoints q <= projectedPoints p) l ->
  firstBest (p :: l) = Some p.
Proof.
  intros Hall. simpl. destruct (firstBest l) as [q|] eqn:Hq; unfold better; [|done].
  apply firstBest_elem in Hq. rewrite Forall_forall in Hall. specialize (Hall q Hq).
  destruct (Z.ltb_spec (projectedPoints p) (projectedPoints q)); [lia | done].
Qed.

Lemma find_descending (f : Player -> bool) l :
  pointsDescending l -> List.find f l = firstBest (filter (fun p => f p = true) l).
Proof.
  unfold pointsDescending. induction 1 as [|x l Hsorted IH Hall]; simpl; [done|].
  rewrite filter_cons. destruct (f x) eqn:Hfx.
  - rewrite decide_True by done. symmetry. apply firstBest_descending.
    apply Forall_forall. intros q Hq. apply list_elem_of_filter in Hq as [_ Hq].
    rewrite Forall_forall in Hall. by apply Hall.
  - rewrite decide_False by (by destruct (f x)). done.
Qed.

Lemma find_insertSorted (f : Player -> bool) p l :
  pointsDescending l ->
  List.find f (insertSorted p l)
  = better (if f p then Some p else None) (List.find f l).
Proof.
  unfold pointsDescending. induction 1 as [|x l Hsorted IH Hall]; simpl.
  - by destruct (f p).
  - unfold comesAfter.
    destruct (Z.ltb_spec (projectedPoints p) (projectedPoints x)) as [Hlt|Hge]; simpl.
    + destruct (f x) eqn:Hfx.
      * destruct (f p); unfold better; [|done].
        destruct (Z.ltb_spec (projectedPoints p) (projectedPoints x)); [done | lia].
      * exact IH.
    + destruct (f p) eqn:Hfp; unfold better; [|done].
      destruct (if f x then Some x else List.find f l) as [q|] eqn:Hq; [|done].
      assert (projectedPoints q <= projectedPoints x) as Hqx.
      { destruct (f x); [injection Hq as <-; lia|].
        apply find_some in Hq as [Hq _]. rewrite Forall_forall in Hall.
        apply Hall. by apply list_elem_of_In. }
      destruct (Z.ltb_spec (projectedPoints p) (projectedPoints q)); [lia | done].
Qed.

(** The first hit in the sorted group is the best of the hits in input
    order. *)
Lemma find_sortByPoints (f : Player -> bool) l :
  List.find f (sortByPoints l) = firstBest (filter (fun p => f p = true) l).
Proof.
  induction l as [|p l IH]; simpl; [done|].
  rewrite find_insertSorted by apply sortByPoints_descending.
  rewrite IH, filter_cons. destruct (f p) eqn:Hfp.
  - by rewrite decide_True.
  - rewrite decide_False by (by destruct (f p)). done.
Qed.

Lemma firstBest_sortByPoints (f : Player -> bool) l :
  firstBest (filter (fun p => f p = true) (sortByPoints l))
  = firstBest (filter (fun p => f p = true) l).
Proof.
  rewrite <- find_descending by apply sortByPoints_descending.
  apply find_sortByPoints.
Qed.

(** The scan of the FLEX and SUPER_FLEX branches keeps the best so far. *)
Lemma scan_firstBest usedPlayers ps : forall best,
  foldl (consider usedPlayers) best ps
  = better best (firstBest (filter (fun p => isUnused usedPlayers p = true) ps)).
Proof.
  induction ps as [|p ps IH]; simpl; intros best.
  - by rewrite better_none_r.
  - rewrite IH, filter_cons. unfold consider. case_decide as Hp.
    + rewrite Hp. simpl. rewrite better_assoc. f_equal.
      destruct best as [b|]; unfold better; [|done]. by destruct (_ <? _)%Z.
    + apply not_true_is_false in Hp. rewrite Hp. done.
Qed.

(** ** The groups *)

Lemma lookupGroup_pushPlayer k position p grouped :
  lookupGroup k (pushPlayer position p grouped)
  = if decide (position = k) then Some (groupList k grouped ++ [p])
    else lookupGroup k grouped.
Proof.
  unfold groupList. induction grouped as [|[k0 ps] rest IH]; simpl.
  - repeat case_decide; done.
  - destruct (decide (k0 = position)) as [->|Hne]; simpl.
    + destruct (decide (position = k)) as [->|Hne']; simpl; done.
    + rewrite IH. destruct (decide (k0 = k)) as [->|Hne']; [|done].
      by rewrite decide_False by done.
Qed.

Lemma groupList_pushPlayer k position p grouped :
  groupList k (pushPlayer position p grouped)
  = groupList k grouped ++ (if decide (position = k) then [p] else []).
Proof.
  unfold groupList at 1. rewrite lookupGroup_pushPlayer.
  case_decide; simpl; [done | by rewrite app_nil_r].
Qed.

Lemma keys_pushPlayer position p grouped :
  map fst (pushPlayer position p grouped) = seeOne (map fst grouped) position.
Proof.
  induction grouped as [|[k0 ps] rest IH]; [done|].
  cbn [pushPlayer map fst]. unfold seeOne in *.
  destruct (decide (k0 = position)) as [->|Hne]; cbn [map fst].
  - rewrite decide_True; [done | left].
  - rewrite IH. destruct (decide (position ∈ map fst rest)) as [Hin|Hnin].
    + rewrite decide_True; [done | by right].
    + rewrite decide_False; [done|]. intros [->|Hin]%elem_of_cons; done.
Qed.

Lemma seeOne_NoDup seen position : NoDup seen -> NoDup (seeOne seen position).
Proof.
  intros Hnd. unfold seeOne. case_decide as Hin; [done|].
  apply NoDup_app. split; [done|]. split; [|apply NoDup_singleton].
  intros x Hx ->%list_elem_of_singleton. done.
Qed.

Lemma seeAll_NoDup positions : forall seen, NoDup seen -> NoDup (seeAll seen positions).
Proof.
  unfold seeAll. induction positions as [|position rest IH]; simpl; intros seen Hnd; [done|].
  by apply IH, seeOne_NoDup.
Qed.

Lemma groupList_pushAll k player positions : forall grouped,
  groupList k (pushAll player grouped positions)
  = groupList k grouped ++ map (fun _ => player) (filter (fun e => e = k) positions).
Proof.
  unfold pushAll. induction positions as [|position rest IH]; simpl; intros grouped.
  - by rewrite app_nil_r.
  - rewrite IH, groupList_pushPlayer, filter_cons, <- app_assoc.
    by case_decide.
Qed.

Lemma keys_pushAll player positions : forall grouped,
  map fst (pushAll player grouped positions) = seeAll (map fst grouped) positions.
Proof.
  unfold pushAll, seeAll. induction positions as [|position rest IH]; simpl; intros grouped.
  - done.
  - by rewrite IH, keys_pushPlayer.
Qed.

Lemma groupList_collect k players : forall grouped,
  groupList k (foldl (fun grouped player => pushAll player grouped (eligiblePositions player))
                     grouped players)
  = groupList k grouped ++ groupOf k players.
Proof.
  induction players as [|p rest IH]; simpl; intros grouped.
  - by rewrite app_nil_r.
  - by rewrite IH, groupList_pushAll, <- app_assoc.
Qed.

Lemma keys_collect players : forall grouped,
  map fst (foldl (fun grouped player => pushAll player grouped (eligiblePositions player))
                 grouped players)
  = seeAll (map fst grouped) (flat_map eligiblePositions players).
Proof.
  induction players as [|p rest IH]; simpl; intros grouped.
  - done.
  - rewrite IH, keys_pushAll. unfold seeAll. by rewrite foldl_app.
Qed.

Lemma groupList_collectGroups k players :
  groupList k (collectGroups players) = groupOf k players.
Proof. apply (groupList_collect k players []). Qed.

Lemma keys_collectGroups players :
  map fst (collectGroups players) = positionsSeen players.
Proof. apply (keys_collect players []). Qed.

Lemma grouped_by_keys (grouped : Grouped) :
  NoDup (map fst grouped) ->
  grouped = map (fun k => (k, groupList k grouped)) (map fst grouped).
Proof.
  induction grouped as [|[k0 ps] rest IH]; simpl; intros Hnd; [done|].
  apply NoDup_cons in Hnd as [Hnin Hnd]. unfold groupList at 1. simpl.
  rewrite decide_True by done. simpl. f_equal.
  rewrite (IH Hnd) at 1. apply map_ext_in. intros k Hk.
  unfold groupList. simpl. rewrite decide_False; [done|].
  intros ->. apply Hnin. by apply list_elem_of_In.
Qed.

Lemma collectGroups_by_keys players :
  collectGroups players = map (fun k => (k, groupOf k players)) (positionsSeen players).
Proof.
  rewrite (grouped_by_keys (collectGroups players)).
  - rewrite keys_collectGroups. apply map_ext. intros k.
    by rewrite groupList_collectGroups.
  - rewrite keys_collectGroups. apply seeAll_NoDup. constructor.
Qed.

Lemma lookupGroup_sorted (sort : list Player -> list Player) k (grouped : Grouped) :
  lookupGroup k (map (fun kv => (kv.1, sort kv.2)) grouped) = sort <$> lookupGroup k grouped.
Proof.
  induction grouped as [|[k0 ps] rest IH]; simpl; [done|]. by case_decide.
Qed.

Lemma lookupGroup_groupPlayersByPosition k players :
  default [] (lookupGroup k (groupPlayersByPosition players))
  = sortByPoints (groupOf k players).
Proof.
  unfold groupPlayersByPosition, groupPlayersByPositionWith.
  rewrite lookupGroup_sorted, <- groupList_collectGroups. unfold groupList.
  by destruct (lookupGroup k (collectGroups players)).
Qed.

Lemma scanGroup_firstBest playersByPosition usedPlayers k best :
  match lookupGroup k playersByPosition with
  | Some ps => foldl (consider usedPlayers) best ps
  | None => best
  end
  = better best (firstBest (filter (fun p => isUnused usedPlayers p = true)
                                   (default [] (lookupGroup k playersByPosition)))).
Proof.
  destruct (lookupGroup k playersByPosition) as [ps|]; simpl.
  - apply scan_firstBest.
  - by rewrite better_none_r.
Qed.

Lemma firstBest_copies (f : Player -> bool) p (xs : list string) :
  firstBest (filter (fun q => f q = true) (map (fun _ => p) xs))
  = if f p && bool_decide (xs ≠ []) then Some p else None.
Proof.
  induction xs as [|x xs IH]; simpl.
  - by rewrite andb_false_r.
  - rewrite filter_cons. case_decide as Hfp.
    + cbn [firstBest]. rewrite IH, Hfp. cbn [andb].
      destruct (bool_decide (xs ≠ [])); unfold better; [by rewrite Z.ltb_irrefl | done].
    + apply not_true_is_false in Hfp. by rewrite IH, Hfp.
Qed.

Lemma filter_eq_nonempty (slot : string) (positions : list string) :
  bool_decide (filter (fun e => e = slot) positions ≠ []) = bool_decide (slot ∈ positions).
Proof.
  apply bool_decide_ext. induction positions as [|e rest IH]; simpl.
  - split; [done | intros Hin; by apply elem_of_nil in Hin].
  - rewrite filter_cons, elem_of_cons. case_decide as He.
    + subst. split; [by left | done].
    + rewrite IH. split; [by right | intros [->|?]; done].
Qed.

(** For a slot with a position of its own, the best unused member of the
    group is the choice of the tie-break law among the candidates. *)
Lemma firstBest_groupOf usedPlayers slot players :
  slot ≠ "FLEX" -> slot ≠ "SUPER_FLEX" ->
  firstBest (filter (fun p => isUnused usedPlayers p = true) (groupOf slot players))
  = inputOrderChoice players usedPlayers slot.
Proof.
  intros Hflex Hsuper.
  assert (Haccepts : forall p, accepts slot p = bool_decide (slot ∈ eligiblePositions p)).
  { intros p. unfold accepts. by rewrite !decide_False. }
  unfold inputOrderChoice, candidates, groupOf.
  induction players as [|p rest IH]; simpl; [done|].
  rewrite filter_app, firstBest_app, IH, firstBest_copies, filter_eq_nonempty, filter_cons.
  rewrite <- Haccepts. case_decide as Hp.
  - by rewrite Hp.
  - apply not_true_is_false in Hp. by rewrite Hp.
Qed.

Lemma selectFixed_groupOf usedPlayers slot players :
  selectFixed (groupPlayersByPosition players) usedPlayers slot
  = firstBest (filter (fun p => isUnused usedPlayers p = true) (groupOf slot players)).
Proof.
  unfold selectFixed.
  rewrite <- find_sortByPoints, <- lookupGroup_groupPlayersByPosition.
  by destruct (lookupGroup slot (groupPlayersByPosition players)).
Qed.

Lemma unused_group usedPlayers k players :
  firstBest (filter (fun p => isUnused usedPlayers p = true)
                    (default [] (lookupGroup k (groupPlayersByPosition players))))
  = firstBest (filter (fun p => isUnused usedPlayers p = true) (groupOf k players)).
Proof. by rewrite lookupGroup_groupPlayersByPosition, firstBest_sortByPoints. Qed.

Lemma selectFlex_groupOf usedPlayers players :
  selectFlex (groupPlayersByPosition players) usedPlayers
  = firstBest (filter (fun p => isUnused usedPlayers p = true)
                      (groupOf "RB" players ++ groupOf "WR" players ++ groupOf "TE" players)).
Proof.
  unfold selectFlex, flexEligible. simpl.
  rewrite !scanGroup_firstBest, !unused_group, !filter_app, !firstBest_app.
  unfold better at 3. by rewrite better_assoc.
Qed.

Lemma scanGroups_firstBest usedPlayers (grouped : Grouped) : forall best,
  foldl (fun bestPlayer kv => foldl (consider usedPlayers) bestPlayer kv.2) best grouped
  = better best (firstBest (filter (fun p => isUnused usedPlayers p = true)
                                   (flat_map snd grouped))).
Proof.
  induction grouped as [|[k ps] rest IH]; simpl; intros best.
  - by rewrite better_none_r.
  - by rewrite IH, scan_firstBest, filter_app, firstBest_app, better_assoc.
Qed.


Lemma groups_sorted players :
  Forall (fun kv => pointsDescending kv.2
                    /\ forall v, withPoints v kv.2 = withPoints v (groupOf kv.1 players))
         (groupPlayersByPosition players).
Proof.
  unfold groupPlayersByPosition, groupPlayersByPositionWith.
  rewrite collectGroups_by_keys, map_map. apply Forall_forall.
  intros kv Hkv. apply list_elem_of_fmap in Hkv as (k & -> & _). simpl.
  split; [apply sortByPoints_descending | intros; apply withPoints_sortByPoints].
Qed.

(** C3 (as stated) fails for the flexible slots.  With a wide receiver and
    a running back both at 10 points and the receiver first in the input,
    the FLEX slot goes to the running back; with a running back at 10
    before a receiver at 10, and a lesser receiver before both, the
    SUPER_FLEX slot goes to the receiver. *)
Lemma flex_tie_goes_to_group_order :
  map entryId (assign tied_players ["FLEX"]) = ["RB1"]
  /\ playerId <$> inputOrderChoice tied_players ∅ "FLEX" = Some "WR1"
  /\ selectFor (groupPlayersByPosition tied_players) ∅ "FLEX"
     ≠ inputOrderChoice tied_players ∅ "FLEX"
  /\ map entryId (assign tied_superflex_players ["SUPER_FLEX"]) = ["WR1"]
  /\ playerId <$> inputOrderChoice tied_superflex_players ∅ "SUPER_FLEX" = Some "RB1".
Proof. repeat split; try (vm_compute; reflexivity). vm_compute. discriminate. Qed.

(** ** Scenario D *)

Lemma changeAt_ext (StringToNumber other : string -> JsNumber)
    optimizedLineup players index currentPlayerId :
  currentPoints StringToNumber players currentPlayerId
  = currentPoints other players currentPlayerId ->
  changeAt StringToNumber optimizedLineup players index currentPlayerId
  = changeAt other optimizedLineup players index currentPlayerId.
Proof. intros Hsame. unfold changeAt. by rewrite Hsame. Qed.

Lemma changeAt_same (StringToNumber : string -> JsNumber)
    optimizedLineup players index currentPlayerId suggested :
  optimizedLineup !! index = Some suggested ->
  entryId suggested = currentPlayerId ->
  changeAt StringToNumber optimizedLineup players index currentPlayerId = None.
Proof.
  intros Hlook <-. unfold changeAt. rewrite Hlook. simpl.
  by rewrite decide_False by (intros Hne; by apply Hne).
Qed.

Lemma sumOfValues_QB2 :
  sumOfValues (sleeperPlayer "QB2" "QB" "Second" "Passer") = PString scenarioD_sum.
Proof. vm_compute. reflexivity. Qed.

Lemma scenarioD_currentPoints (StringToNumber : string -> JsNumber) :
  StringToNumber scenarioD_sum = NaN ->
  currentPoints StringToNumber scenarioD_players "QB2"
  = currentPoints nonNumeric scenarioD_players "QB2".
Proof.
  intros Hnan. unfold currentPoints.
  replace (scenarioD_players !! "QB2")
    with (Some (sleeperPlayer "QB2" "QB" "Second" "Passer")) by (vm_compute; reflexivity).
  rewrite sumOfValues_QB2. simpl. by rewrite Hnan.
Qed.

Lemma scenarioD_changes (StringToNumber : string -> JsNumber) optimizedLineup suggested :
  StringToNumber scenarioD_sum = NaN ->
  optimizedLineup !! 1%nat = Some suggested ->
  entryId suggested = "RB1" ->
  findLineupChanges StringToNumber scenarioD_actual optimizedLineup scenarioD_players
  = findLineupChanges nonNumeric scenarioD_actual optimizedLineup scenarioD_players.
Proof.
  intros Hnan Hlook Hid. unfold findLineupChanges, scenarioD_actual. cbn [changesFrom].
  rewrite (changeAt_ext StringToNumber nonNumeric _ _ 0 "QB2")
    by by apply scenarioD_currentPoints.
  by rewrite !(changeAt_same _ _ _ 1 "RB1" suggested).
Qed.

(** C1 at Scenario D: QB2 (projected 10) starts and QB1 (projected 20) is
    the optimal quarterback.  The diff emits the one change at index 0,
    but its gain is not 20 - 10: the subtrahend is computed from the values
    of QB2's player object, whose sum is a string that is not a number, and
    the gain is reported as NaN, also when the lineup, the projections and
    the diff come from one request; for a starter unknown to the player
    dictionary the subtrahend is 0 and the gain is 20.0. *)
Theorem scenario_D_gain (StringToNumber : string -> JsNumber) :
  StringToNumber scenarioD_sum = NaN ->
  findLineupChanges StringToNumber scenarioD_actual scenarioD_optimal scenarioD_players
  = [{| change_position := 0; current_playerId := "QB2"; current_name := "Second Passer";
        suggested_playerId := "QB1"; suggested_name := "QB1";
        suggested_projectedPointsGain := "NaN" |}]
  /\ (exists result,
        execute StringToNumber sample_config None scenarioD_net = Normal result
        /\ analysis_suggestedChanges result = [scenarioD_change "NaN"])
  /\ findLineupChanges StringToNumber scenarioD_actual scenarioD_optimal ∅
     = [{| change_position := 0; current_playerId := "QB2"; current_name := "Unknown";
           suggested_playerId := "QB1"; suggested_name := "QB1";
           suggested_projectedPointsGain := "20.0" |}].
Proof.
  intros Hnan. split; [|split].
  - rewrite (scenarioD_changes StringToNumber scenarioD_optimal (entry RB1 "RB")) by done.
    vm_compute. reflexivity.
  - set (roster := {| Sleeper.owner_id := "u1"; Sleeper.players := ["QB1"; "QB2"; "RB1"];
                      Sleeper.starters := scenarioD_actual |}).
    set (league := {| Sleeper.roster_positions := ["QB"; "RB"; "BN"] |}).
    rewrite (execute_fetched StringToNumber sample_config None (ROAD_TO_GLORY sample_config)
               scenarioD_net league roster scenarioD_players)
      by (vm_compute; reflexivity).
    match eval vm_compute in
          (assignJs (playerPool scenarioD_players
                                (projectionsOf scenarioD_net (Sleeper.players roster))
                                (Sleeper.players roster))
                    (Sleeper.roster_positions league)) with
    | Normal ?lineup =>
        destruct (optimizeRoster_assign StringToNumber scenarioD_net league roster
                    scenarioD_players lineup) as (result & -> & _ & Hchanges);
          [vm_compute; reflexivity|]
    end.
    exists result. split; [done|]. rewrite Hchanges.
    cbn [Sleeper.starters roster].
    erewrite (scenarioD_changes StringToNumber); [|done|reflexivity|reflexivity].
    vm_compute. reflexivity.
  - unfold findLineupChanges, scenarioD_actual. cbn [changesFrom].
    rewrite (changeAt_same _ _ _ 1 "RB1" (entry RB1 "RB")) by done.
    vm_compute. reflexivity.
Qed.

Lemma scenario_D_gain_witness :
  nonNumeric scenarioD_sum = NaN
  /\ findLineupChanges nonNumeric scenarioD_actual scenarioD_optimal scenarioD_players
     = [{| change_position := 0; current_playerId := "QB2"; current_name := "Second Passer";
           suggested_playerId := "QB1"; suggested_name := "QB1";
           suggested_projectedPointsGain := "NaN" |}].
Proof.
  split; [reflexivity|].
  exact (proj1 (scenario_D_gain nonNumeric eq_refl)).
Defined.

(** ** Further scenarios of the specification *)

(** Scenario B: with QB1 already used, a SUPER_FLEX slot takes RB1. *)
Example scenario_B :
  assign [QB1; RB1] ["QB"; "SUPER_FLEX"] = [entry QB1 "QB"; entry RB1 "SUPER_FLEX"].
Proof. vm_compute. reflexivity. Qed.

(** The diff of a lineup with its own players is empty. *)
Example diff_of_optimal :
  findLineupChanges nonNumeric (map entryId scenarioA_lineup) scenarioA_lineup ∅ = [].
Proof. vm_compute. reflexivity. Qed.

(** * Further properties of the code *)

(** ** The week *)

Lemma weekMs_value : weekMs = 604800000.
Proof. reflexivity. Qed.

Lemma getCurrentWeek_bounds now : 1 <= getCurrentWeek now <= 18.
Proof. unfold getCurrentWeek. lia. Qed.

(** X1: the current week lies between 1 and 18 whatever the time, and it
    never decreases as time goes on. *)
Theorem getCurrentWeek_range now later :
  now <= later ->
  1 <= getCurrentWeek now /\ getCurrentWeek now <= getCurrentWeek later
  /\ getCurrentWeek later <= 18.
Proof.
  intros Hle. pose proof (getCurrentWeek_bounds now). pose proof (getCurrentWeek_bounds later).
  split; [lia|]. split; [|lia]. unfold getCurrentWeek.
  assert ((now - seasonStart) / weekMs <= (later - seasonStart) / weekMs).
  { apply Z.div_le_mono; [rewrite weekMs_value|]; lia. }
  lia.
Qed.

Lemma getCurrentWeek_range_witness :
  1725494400000 <= 1726099200000
  /\ 1 <= getCurrentWeek 1725494400000
  /\ getCurrentWeek 1725494400000 <= getCurrentWeek 1726099200000
  /\ getCurrentWeek 1726099200000 <= 18.
Proof.
  assert (H : 1725494400000 <= 1726099200000) by lia.
  split; [exact H|]. exact (getCurrentWeek_range 1725494400000 1726099200000 H).
Defined.

(** X2: in the [k]-th week after 5 September 2024 (counted from 0, up to
    17) the current week is [k + 1]. *)
Theorem getCurrentWeek_in_season k now :
  0 <= k <= 17 ->
  seasonStart + k * weekMs <= now < seasonStart + (k + 1) * weekMs ->
  getCurrentWeek now = k + 1.
Proof.
  intros Hk Hnow. unfold getCurrentWeek.
  assert ((now - seasonStart) / weekMs = k) as ->.
  { symmetry. apply (Z.div_unique _ _ k (now - seasonStart - k * weekMs));
      rewrite weekMs_value in *; lia. }
  lia.
Qed.

Lemma getCurrentWeek_in_season_witness :
  0 <= 2 <= 17
  /\ seasonStart + 2 * weekMs <= 1726790400000 < seasonStart + (2 + 1) * weekMs
  /\ getCurrentWeek 1726790400000 = 2 + 1.
Proof.
  assert (H1 : 0 <= 2 <= 17) by lia.
  assert (H2 : seasonStart + 2 * weekMs <= 1726790400000 < seasonStart + (2 + 1) * weekMs)
    by (vm_compute; split; [discriminate | reflexivity]).
  split; [exact H1|]. split; [exact H2|].
  exact (getCurrentWeek_in_season 2 1726790400000 H1 H2).
Defined.

(** X3: the current week is 1 exactly until the end of the first week
    after 5 September 2024, any earlier time included, and it is 18
    exactly from the start of the eighteenth week on, for all later
    time. *)
Theorem getCurrentWeek_clamped now :
  (getCurrentWeek now = 1 <-> now < seasonStart + weekMs)
  /\ (getCurrentWeek now = 18 <-> seasonStart + 17 * weekMs <= now).
Proof.
  unfold getCurrentWeek.
  pose proof (Z.div_mod (now - seasonStart) weekMs) as Hdiv.
  pose proof (Z.mod_pos_bound (now - seasonStart) weekMs) as Hmod.
  rewrite weekMs_value in *. specialize (Hdiv ltac:(lia)). specialize (Hmod ltac:(lia)).
  split; split; intros H; lia.
Qed.

(** X4: the week of a request lies between 1 and 18 exactly when the week
    argument is absent, is 0 (which counts as absent) or lies between 1
    and 18 itself: a week argument is used as it is given. *)
Theorem weekOf_range argsWeek now :
  1 <= weekOf argsWeek now <= 18
  <-> match argsWeek with
      | Some week => 0 <= week <= 18
      | None => True
      end.
Proof.
  pose proof (getCurrentWeek_bounds now) as Hrange.
  unfold weekOf. destruct argsWeek as [week|]; [|tauto].
  case_decide; [subst; split; [lia | tauto] | split; lia].
Qed.

(** ** Rounding to two decimals *)

Lemma roundHalfUp_bounds (y : Q) :
  (inject_Z (roundHalfUp y) <= y + (1 # 2) /\ y - (1 # 2) < inject_Z (roundHalfUp y))%Q.
Proof.
  unfold roundHalfUp.
  pose proof (Qfloor_le (y + (1 # 2))) as Hle.
  pose proof (Qlt_floor (y + (1 # 2))) as Hlt.
  rewrite inject_Z_plus in Hlt. change (inject_Z 1) with 1%Q in Hlt. split; lra.
Qed.

Lemma roundHalfUp_mono (x y : Q) : (x <= y)%Q -> roundHalfUp x <= roundHalfUp y.
Proof. intros Hle. unfold roundHalfUp. apply Qfloor_resp_le. lra. Qed.

Lemma roundHalfUp_nonneg (y : Q) : (0 <= y)%Q -> 0 <= roundHalfUp y.
Proof.
  intros Hy. change 0 with (Qfloor 0). unfold roundHalfUp. apply Qfloor_resp_le. lra.
Qed.

Lemma roundHalfUp_inject n : roundHalfUp (inject_Z n) = n.
Proof.
  destruct (roundHalfUp_bounds (inject_Z n)) as [Hlo Hhi].
  set (m := roundHalfUp (inject_Z n)) in *.
  assert (m < n + 1).
  { rewrite Zlt_Qlt, inject_Z_plus. change (inject_Z 1) with 1%Q. lra. }
  assert (n < m + 1).
  { rewrite Zlt_Qlt, inject_Z_plus. change (inject_Z 1) with 1%Q. lra. }
  lia.
Qed.

Lemma roundHalfUp_comp (x y : Q) : (x == y)%Q -> roundHalfUp x = roundHalfUp y.
Proof. intros Heq. unfold roundHalfUp. apply Qfloor_comp. by rewrite Heq. Qed.

Lemma roundTo2_unfold (x : Q) :
  roundTo2 x = if Qlt_le_dec x 0 then - roundHalfUp (- x * inject_Z 100)%Q
               else roundHalfUp (x * inject_Z 100)%Q.
Proof. reflexivity. Qed.

Lemma roundTo2_nearest (x : Q) :
  (Qabs (x * inject_Z 100 - inject_Z (roundTo2 x)) <= 1 # 2)%Q.
Proof.
  apply Qabs_Qle_condition. rewrite roundTo2_unfold.
  destruct (Qlt_le_dec x 0) as [Hneg|Hpos].
  - destruct (roundHalfUp_bounds (- x * inject_Z 100)) as [Hlo Hhi].
    rewrite inject_Z_opp. change (inject_Z 100) with (100 # 1) in *. split; lra.
  - destruct (roundHalfUp_bounds (x * inject_Z 100)) as [Hlo Hhi].
    change (inject_Z 100) with (100 # 1) in *. split; lra.
Qed.

(** X5: the number of hundredths that [toFixed(2)] prints for [x] is an
    integer nearest to 100 x, at most one half away from it; and when 100 x
    is less than one half away from an integer, that integer is the number
    of hundredths printed. *)
Theorem roundTo2_accuracy (x : Q) n :
  (Qabs (x * inject_Z 100 - inject_Z (roundTo2 x)) <= 1 # 2)%Q
  /\ ((Qabs (x * inject_Z 100 - inject_Z n) < 1 # 2)%Q -> roundTo2 x = n).
Proof.
  split; [apply roundTo2_nearest|]. intros Hnear.
  pose proof (roundTo2_nearest x) as Hround.
  apply Qabs_Qle_condition in Hround. apply Qabs_Qlt_condition in Hnear.
  set (m := roundTo2 x) in *.
  assert (m < n + 1).
  { rewrite Zlt_Qlt, inject_Z_plus. change (inject_Z 1) with 1%Q. lra. }
  assert (n < m + 1).
  { rewrite Zlt_Qlt, inject_Z_plus. change (inject_Z 1) with 1%Q. lra. }
  lia.
Qed.

Lemma roundTo2_accuracy_witness :
  (Qabs ((10004 # 1000) * inject_Z 100 - inject_Z 1000) < 1 # 2)%Q
  /\ roundTo2 (10004 # 1000) = 1000.
Proof.
  assert (H : (Qabs ((10004 # 1000) * inject_Z 100 - inject_Z 1000) < 1 # 2)%Q)
    by (vm_compute; reflexivity).
  split; [exact H|].
  exact (proj2 (roundTo2_accuracy (10004 # 1000) 1000) H).
Defined.

Lemma roundTo2_mono (x y : Q) : (x <= y)%Q -> roundTo2 x <= roundTo2 y.
Proof.
  intros Hle. rewrite !roundTo2_unfold.
  destruct (Qlt_le_dec x 0) as [Hx|Hx], (Qlt_le_dec y 0) as [Hy|Hy].
  - apply Z.opp_le_mono. rewrite !Z.opp_involutive. apply roundHalfUp_mono.
    change (inject_Z 100) with (100 # 1). lra.
  - assert (0 <= roundHalfUp (- x * inject_Z 100)%Q).
    { apply roundHalfUp_nonneg. change (inject_Z 100) with (100 # 1). lra. }
    assert (0 <= roundHalfUp (y * inject_Z 100)%Q).
    { apply roundHalfUp_nonneg. change (inject_Z 100) with (100 # 1). lra. }
    lia.
  - lra.
  - apply roundHalfUp_mono. change (inject_Z 100) with (100 # 1). lra.
Qed.

(** X6: rounding to two decimals keeps the order: of two projections the
    greater never gets the smaller rounded value (it may get the same), so
    of two players in the pool the one with the greater projection never
    has fewer points. *)
Theorem roundTo2_monotone players projections a b pa pb :
  (orZero (projections !! a) <= orZero (projections !! b))%Q ->
  makePlayer players projections a = Some pa ->
  makePlayer players projections b = Some pb ->
  roundTo2 (orZero (projections !! a)) <= roundTo2 (orZero (projections !! b))
  /\ projectedPoints pa <= projectedPoints pb.
Proof.
  intros Hle Ha Hb. pose proof (roundTo2_mono _ _ Hle) as Hmono.
  split; [done|]. unfold makePlayer in *.
  destruct (players !! a); [|discriminate]. destruct (players !! b); [|discriminate].
  injection Ha as <-. injection Hb as <-. done.
Qed.

Lemma roundTo2_monotone_witness :
  (orZero (close_projections !! "QBa") <= orZero (close_projections !! "QBb"))%Q
  /\ (exists pa pb,
        makePlayer close_players close_projections "QBa" = Some pa
        /\ makePlayer close_players close_projections "QBb" = Some pb
        /\ projectedPoints pa <= projectedPoints pb).
Proof.
  assert (H : (orZero (close_projections !! "QBa") <= orZero (close_projections !! "QBb"))%Q)
    by (vm_compute; discriminate).
  split; [exact H|].
  destruct (makePlayer close_players close_projections "QBa") as [pa|] eqn:Ha;
    [|vm_compute in Ha; discriminate].
  destruct (makePlayer close_players close_projections "QBb") as [pb|] eqn:Hb;
    [|vm_compute in Hb; discriminate].
  exists pa, pb. split; [reflexivity|]. split; [reflexivity|].
  exact (proj2 (roundTo2_monotone close_players close_projections "QBa" "QBb" pa pb H Ha Hb)).
Defined.

(** ** Tables built from entries *)

Lemma mapOfEntries_snoc {V} (entries : list (string * V)) k v :
  mapOfEntries (entries ++ [(k, v)]) = <[k := v]> (mapOfEntries entries).
Proof. unfold mapOfEntries. by rewrite foldl_app. Qed.

Lemma mapOfEntries_lookup {V} (entries : list (string * V)) k :
  mapOfEntries entries !! k = snd <$> last (filter (fun kv => kv.1 = k) entries).
Proof.
  induction entries as [|[k' v] entries IH] using rev_ind; [done|].
  rewrite mapOfEntries_snoc, filter_app, filter_cons, filter_nil. simpl.
  destruct (decide (k' = k)) as [->|Hne].
  - by rewrite lookup_insert_eq, last_snoc.
  - by rewrite lookup_insert_ne, app_nil_r.
Qed.

(** X7: a table built from a list of entries gives for a key the value of
    the last entry with that key, and nothing for a key without entry; so
    every player on the roster has a projection in the table [execute]
    builds, the one fetched for that player, and a player who is not on
    the roster has none. *)
Theorem projection_table net rosterPlayers playerId (entries : list (string * Q)) :
  mapOfEntries entries !! playerId
  = snd <$> last (filter (fun kv => kv.1 = playerId) entries)
  /\ projectionsOf net rosterPlayers !! playerId
     = if decide (playerId ∈ rosterPlayers)
       then match projectedPointsOf (projectionResponse net playerId) with
            | Normal v => Some v
            | Throw _ => Some 0%Q
            end
       else None.
Proof.
  split; [apply mapOfEntries_lookup|].
  unfold projectionsOf. rewrite mapOfEntries_lookup.
  induction rosterPlayers as [|x rest IH] using rev_ind; [done|].
  rewrite map_app, filter_app. simpl. rewrite filter_cons, filter_nil. simpl.
  destruct (decide (x = playerId)) as [->|Hne].
  - rewrite last_snoc. simpl. rewrite decide_True by (apply elem_of_app; right; left).
    by destruct (projectedPointsOf _).
  - rewrite app_nil_r, IH.
    destruct (decide (playerId ∈ rest)) as [Hin|Hnin].
    + rewrite decide_True; [done | apply elem_of_app; by left].
    + rewrite decide_False; [done|].
      intros [?|Hin]%elem_of_app; [done|]. apply list_elem_of_singleton in Hin. done.
Qed.

(** ** The pool *)

Lemma makePlayer_Some players projections playerId0 p :
  makePlayer players projections playerId0 = Some p ->
  playerId p = playerId0
  /\ exists sp, players !! playerId0 = Some sp /\ status p = Sleeper.status sp.
Proof.
  unfold makePlayer. destruct (players !! playerId0) as [sp|]; [|discriminate].
  intros [= <-]. simpl. eauto.
Qed.

Lemma omap_cons_eq {A B} (f : A -> option B) x l :
  omap f (x :: l) = match f x with Some y => y :: omap f l | None => omap f l end.
Proof. reflexivity. Qed.

Lemma playerPool_cons players projections x rest :
  playerPool players projections (x :: rest)
  = match makePlayer players projections x with
    | Some p => if isActive p then p :: playerPool players projections rest
                else playerPool players projections rest
    | None => playerPool players projections rest
    end.
Proof.
  unfold playerPool. rewrite omap_cons_eq.
  destruct (makePlayer players projections x) as [p|]; [|done].
  rewrite filter_cons. case_decide as Hp.
  - by rewrite Hp.
  - apply not_true_is_false in Hp. by rewrite Hp.
Qed.

Lemma playerPool_spec players projections rosterPlayers playerId0 :
  (playerId0 ∈ map playerId (playerPool players projections rosterPlayers)
   <-> playerId0 ∈ rosterPlayers
       /\ exists sp, players !! playerId0 = Some sp /\ Sleeper.status sp = "Active")
  /\ map playerId (playerPool players projections rosterPlayers) `sublist_of` rosterPlayers
  /\ Forall (fun p => status p = "Active") (playerPool players projections rosterPlayers).
Proof.
  split; [|split].
  - induction rosterPlayers as [|x rest IH]; [|rewrite playerPool_cons].
    { split; [intros Hin; by apply elem_of_nil in Hin | intros [Hin _]; by apply elem_of_nil in Hin]. }
    destruct (makePlayer players projections x) as [p|] eqn:Hmake.
    + apply makePlayer_Some in Hmake as (Hid & sp & Hsp & Hstatus).
      unfold isActive. rewrite elem_of_cons. case_bool_decide as Hact.
      * simpl. rewrite elem_of_cons, IH, Hid. split.
        -- intros [->|[Hin Hex]]; [|by auto].
           split; [by left|]. exists sp. by rewrite <- Hstatus.
        -- intros [[->|Hin] Hex]; [by left | right; auto].
      * rewrite IH. split; [intros [Hin Hex]; auto|].
        intros [[->|Hin] Hex]; [|done].
        destruct Hex as (sp' & Hsp' & Hact'). rewrite Hsp in Hsp'. injection Hsp' as <-.
        by rewrite Hstatus in Hact.
    + rewrite IH, elem_of_cons. split; [intros [Hin Hex]; auto|].
      intros [[->|Hin] Hex]; [|done].
      destruct Hex as (sp & Hsp & _). unfold makePlayer in Hmake. by rewrite Hsp in Hmake.
  - induction rosterPlayers as [|x rest IH]; [done|]. rewrite playerPool_cons.
    destruct (makePlayer players projections x) as [p|] eqn:Hmake.
    + apply makePlayer_Some in Hmake as (Hid & _).
      destruct (isActive p); simpl; [rewrite Hid; by apply sublist_skip | by apply sublist_cons].
    + by apply sublist_cons.
  - unfold playerPool. apply Forall_forall. intros p Hp.
    apply list_elem_of_filter in Hp as [Hact _]. unfold isActive in Hact.
    by apply bool_decide_eq_true in Hact.
Qed.

(** X8: the pool holds, in roster order, the roster players that the
    player dictionary knows and reports as Active, and no others: a roster
    identifier missing from the dictionary and a player of any other status
    are left out. *)
Theorem playerPool_ids players projections rosterPlayers playerId0 :
  (playerId0 ∈ map playerId (playerPool players projections rosterPlayers)
   <-> playerId0 ∈ rosterPlayers
       /\ exists sp, players !! playerId0 = Some sp /\ Sleeper.status sp = "Active")
  /\ map playerId (playerPool players projections rosterPlayers) `sublist_of` rosterPlayers
  /\ Forall (fun p => status p = "Active") (playerPool players projections rosterPlayers).
Proof. apply playerPool_spec. Qed.

(** ** The groups *)

Lemma elem_of_groupOf q position players :
  q ∈ groupOf position players <-> q ∈ players /\ position ∈ eligiblePositions q.
Proof.
  unfold groupOf. rewrite list_elem_of_In, in_flat_map. split.
  - intros (p & Hp & Hq). apply in_map_iff in Hq as (e & <- & He).
    apply list_elem_of_In, list_elem_of_filter in He as [-> He].
    split; [by apply list_elem_of_In | done].
  - intros [Hq Hpos]. exists q. split; [by apply list_elem_of_In|].
    apply in_map_iff. exists position. split; [done|].
    apply list_elem_of_In, list_elem_of_filter. done.
Qed.

Lemma insertSorted_Permutation p l : insertSorted p l ≡ₚ p :: l.
Proof.
  induction l as [|x l IH]; simpl; [done|].
  destruct (comesAfter p x); [|done]. rewrite IH. apply Permutation_swap.
Qed.

Lemma sortByPoints_Permutation l : sortByPoints l ≡ₚ l.
Proof.
  induction l as [|p l IH]; simpl; [done|]. by rewrite insertSorted_Permutation, IH.
Qed.

Lemma elem_of_seeAll k positions : forall seen,
  k ∈ seeAll seen positions <-> k ∈ seen \/ k ∈ positions.
Proof.
  unfold seeAll. induction positions as [|x rest IH]; simpl; intros seen.
  - rewrite elem_of_nil. tauto.
  - rewrite IH, elem_of_cons. unfold seeOne. case_decide as Hin.
    + split; [tauto|]. intros [?|[->|?]]; auto.
    + rewrite elem_of_app, list_elem_of_singleton. tauto.
Qed.

Lemma elem_of_positionsSeen k players :
  k ∈ positionsSeen players <-> exists p, p ∈ players /\ k ∈ eligiblePositions p.
Proof.
  unfold positionsSeen, firstSeen. rewrite elem_of_seeAll, elem_of_nil.
  rewrite list_elem_of_In, in_flat_map. split.
  - intros [[]|(p & Hp & Hk)]. exists p. by rewrite !list_elem_of_In.
  - intros (p & Hp & Hk). right. exists p. by rewrite <- !list_elem_of_In.
Qed.

Lemma lookupGroup_is_Some k (grouped : Grouped) :
  is_Some (lookupGroup k grouped) <-> k ∈ map fst grouped.
Proof.
  induction grouped as [|[k0 ps] rest IH]; simpl.
  - rewrite elem_of_nil. split; [by intros [? ?] | done].
  - rewrite elem_of_cons. case_decide as Hk; [subst; split; eauto|].
    rewrite IH. split; [by right | intros [->|?]; done].
Qed.

Lemma keys_groupPlayersByPosition players :
  map fst (groupPlayersByPosition players) = positionsSeen players.
Proof.
  unfold groupPlayersByPosition, groupPlayersByPositionWith.
  rewrite map_map. simpl. apply keys_collectGroups.
Qed.

(** ** The selection for a slot *)


Lemma accepts_flex q :
  accepts "FLEX" q = true
  <-> "RB" ∈ eligiblePositions q \/ "WR" ∈ eligiblePositions q \/ "TE" ∈ eligiblePositions q.
Proof.
  unfold accepts. rewrite decide_True by done.
  rewrite bool_decide_eq_true, Exists_exists. unfold flexEligible. split.
  - intros (e & He & Hflex). rewrite !elem_of_cons, elem_of_nil in Hflex.
    destruct Hflex as [->|[->|[->|[]]]]; auto.
  - intros [H|[H|H]]; eexists; (split; [exact H|]); rewrite !elem_of_cons; auto.
Qed.


Lemma firstBest_None l : firstBest l = None <-> l = [].
Proof.
  destruct l as [|p l]; simpl; [done|]. split; [|done].
  destruct (firstBest l); unfold better; [destruct (_ <? _)%Z|]; discriminate.
Qed.

Lemma firstBest_max l p :
  firstBest l = Some p -> Forall (fun q => projectedPoints q <= projectedPoints p) l.
Proof.
  revert p. induction l as [|x l IH]; simpl; intros p Hp; [constructor|].
  destruct (firstBest l) as [b|] eqn:Hb; unfold better in Hp.
  - specialize (IH b eq_refl).
    destruct (Z.ltb_spec (projectedPoints x) (projectedPoints b)); injection Hp as <-.
    + constructor; [lia | done].
    + constructor; [lia|]. eapply Forall_impl; [exact IH|]. simpl. intros. lia.
  - injection Hp as <-. apply firstBest_None in Hb as ->. repeat constructor. lia.
Qed.


Lemma filter_nil_iff {A} (P : A -> Prop) `{forall x, Decision (P x)} (l : list A) :
  filter P l = [] <-> forall x, x ∈ l -> ~ P x.
Proof.
  split.
  - intros Hnil x Hx HP. by apply (filter_nil_not_elem_of P l x).
  - intros Hall. apply elem_of_nil_inv. intros x [HP Hx]%list_elem_of_filter.
    by apply (Hall x).
Qed.






(** ** The lineup as a whole *)


Lemma elem_of_slotEntries e playersByPosition usedPlayers slot :
  e ∈ slotEntries playersByPosition usedPlayers slot
  <-> slot ≠ "BN" /\ lineupPosition e = slot
      /\ selectFor playersByPosition usedPlayers slot = Some (player e).
Proof.
  unfold slotEntries. case_decide as Hbn.
  - rewrite elem_of_nil. tauto.
  - destruct (selectFor playersByPosition usedPlayers slot) as [p|].
    + rewrite list_elem_of_singleton. split.
      * intros ->. simpl. auto.
      * intros (_ & Hslot & [= Hp]). destruct e as [p' slot']. simpl in *. by subst.
    + rewrite elem_of_nil. split; [done | intros (_ & _ & ?); discriminate].
Qed.









Lemma fill_bench playersByPosition slots : forall st,
  foldl (fillSlot playersByPosition) st slots
  = foldl (fillSlot playersByPosition) st (nonBench slots).
Proof.
  unfold nonBench. induction slots as [|slot rest IH]; intros st; [done|].
  rewrite filter_cons. simpl. case_decide as Hbn.
  - simpl. apply IH.
  - rewrite IH. f_equal. unfold fillSlot. rewrite decide_True; [done|].
    by destruct (decide (slot = "BN")).
Qed.

(** X15: bench slots, wherever they stand in the slot list, have no
    influence on the lineup: the lineup for a slot list is the lineup for
    the list without its bench slots. *)
Theorem bench_slots_are_skipped playersByPosition slots :
  optimizeLineup playersByPosition slots = optimizeLineup playersByPosition (nonBench slots).
Proof. unfold optimizeLineup. by rewrite fill_bench. Qed.

(** ** The diff, index by index *)

Section DiffByIndex.

Variable StringToNumber : string -> JsNumber.

Lemma changeAt_None optimizedLineup players index currentPlayerId :
  changeAt StringToNumber optimizedLineup players index currentPlayerId = None
  <-> match optimizedLineup !! index with
      | Some suggested => currentPlayerId = entryId suggested
      | None => True
      end.
Proof.
  unfold changeAt. destruct (optimizedLineup !! index) as [suggested|]; simpl.
  - case_decide as Hne.
    + split; [discriminate|]. intros ->. by destruct Hne.
    + split; intros _; [unfold entryId; congruence | reflexivity].
  - split; [done|]. intros _. by repeat case_decide.
Qed.

Lemma changeAt_Some_position optimizedLineup players index currentPlayerId c :
  changeAt StringToNumber optimizedLineup players index currentPlayerId = Some c ->
  change_position c = index /\ current_playerId c = currentPlayerId.
Proof.
  unfold changeAt. case_decide; [|discriminate].
  destruct (optimizedLineup !! index); [|discriminate]. by intros [= <-].
Qed.

Lemma differsAt_middle pre currentPlayerId rest optimizedLineup :
  differsAt (pre ++ currentPlayerId :: rest) optimizedLineup (length pre) = true
  <-> match optimizedLineup !! length pre with
      | Some suggested => currentPlayerId ≠ entryId suggested
      | None => False
      end.
Proof.
  unfold differsAt. rewrite list_lookup_middle by done.
  destruct (optimizedLineup !! length pre); [apply bool_decide_eq_true | done].
Qed.

Lemma changesFrom_positions currentStarters optimizedLineup players : forall pre,
  map change_position
      (changesFrom StringToNumber (length pre) currentStarters optimizedLineup players)
  = filter (fun index => differsAt (pre ++ currentStarters) optimizedLineup index = true)
           (seq (length pre) (length currentStarters)).
Proof.
  induction currentStarters as [|currentPlayerId rest IH]; intros pre; [done|].
  cbn [changesFrom length seq]. rewrite filter_cons.
  specialize (IH (pre ++ [currentPlayerId])).
  rewrite length_app, Nat.add_1_r, <- app_assoc in IH. simpl in IH.
  pose proof (differsAt_middle pre currentPlayerId rest optimizedLineup) as Hdiff.
  destruct (changeAt _ _ _ _ _) as [c|] eqn:Hc.
  - pose proof (changeAt_Some_position _ _ _ _ _ Hc) as [Hpos _].
    rewrite decide_True.
    + simpl. by rewrite Hpos, IH.
    + apply Hdiff. destruct (optimizedLineup !! length pre) as [suggested|] eqn:Hlook.
      * intros Heq. assert (changeAt StringToNumber optimizedLineup players (length pre)
                                     currentPlayerId = None) as Hnone
          by (apply changeAt_None; by rewrite Hlook).
        by rewrite Hnone in Hc.
      * assert (changeAt StringToNumber optimizedLineup players (length pre)
                         currentPlayerId = None) as Hnone
          by (apply changeAt_None; by rewrite Hlook).
        by rewrite Hnone in Hc.
  - rewrite decide_False; [exact IH|].
    rewrite Hdiff. apply changeAt_None in Hc.
    destruct (optimizedLineup !! length pre); tauto.
Qed.

(** X16: the changes are, in increasing order of their index, exactly the
    indices at which the starter and the optimized entry both exist and
    are different players: one change for each such index and none for
    any other. *)
Theorem changes_are_the_differing_indices currentStarters optimizedLineup players :
  map change_position
      (findLineupChanges StringToNumber currentStarters optimizedLineup players)
  = filter (fun index => differsAt currentStarters optimizedLineup index = true)
           (seq 0 (length currentStarters)).
Proof. apply (changesFrom_positions currentStarters optimizedLineup players []). Qed.

Lemma changesFrom_same optimizedLineup players : forall pre,
  changesFrom StringToNumber (length pre) (map entryId optimizedLineup)
              (pre ++ optimizedLineup) players = [].
Proof.
  induction optimizedLineup as [|e rest IH]; intros pre; [done|].
  cbn [map changesFrom].
  rewrite (changeAt_same StringToNumber _ _ (length pre) (entryId e) e);
    [|by apply list_lookup_middle | done].
  specialize (IH (pre ++ [e])). rewrite length_app, Nat.add_1_r, <- app_assoc in IH.
  exact IH.
Qed.

(** X17: the diff of a lineup with the list of its own players is empty,
    whatever the lineup and the player dictionary. *)
Theorem diff_of_same_lineup_is_empty optimizedLineup players :
  findLineupChanges StringToNumber (map entryId optimizedLineup) optimizedLineup players = [].
Proof. apply (changesFrom_same optimizedLineup players []). Qed.




End DiffByIndex.

(** ** The fetches of [execute] *)

Section ExecuteFetches.

Variable StringToNumber : string -> JsNumber.

Lemma fetchData_Normal config leagueConfig net league myRoster players :
  fetchData config leagueConfig net = Normal (league, myRoster, players) ->
  exists leagueR rostersR usersR playersR rosters users,
    leagueResponse net = Normal leagueR /\ rostersResponse net = Normal rostersR
    /\ usersResponse net = Normal usersR /\ playersResponse net = Normal playersR
    /\ ok leagueR = true /\ ok rostersR = true /\ ok usersR = true /\ ok playersR = true
    /\ json leagueR = Normal league /\ json rostersR = Normal rosters
    /\ json usersR = Normal users /\ json playersR = Normal players
    /\ List.find (isMyRoster config leagueConfig
                    (mapOfEntries (map (fun user => (Sleeper.user_id user, user)) users)))
                 rosters
       = Some myRoster.
Proof.
  unfold fetchData.
  destruct (leagueResponse net) as [leagueR|] eqn:HL; [|discriminate].
  destruct (rostersResponse net) as [rostersR|] eqn:HR; [|discriminate].
  destruct (usersResponse net) as [usersR|] eqn:HU; [|discriminate].
  destruct (playersResponse net) as [playersR|] eqn:HP; [|discriminate]. simpl.
  destruct (ok leagueR) eqn:HokL, (ok rostersR) eqn:HokR, (ok usersR) eqn:HokU,
           (ok playersR) eqn:HokP; simpl; try discriminate.
  destruct (json leagueR) as [league'|] eqn:HjL; [|discriminate].
  destruct (json rostersR) as [rosters|] eqn:HjR; [|discriminate].
  destruct (json usersR) as [users|] eqn:HjU; [|discriminate].
  destruct (json playersR) as [players'|] eqn:HjP; [|discriminate]. simpl.
  destruct (List.find _ rosters) as [roster|] eqn:Hfind; [|discriminate].
  intros [= -> -> ->]. exists leagueR, rostersR, usersR, playersR, rosters, users.
  repeat split; done.
Qed.

Lemma userMap_lookup (users : list Sleeper.User) owner user :
  mapOfEntries (map (fun user => (Sleeper.user_id user, user)) users) !! owner = Some user ->
  user ∈ users /\ Sleeper.user_id user = owner.
Proof.
  rewrite mapOfEntries_lookup. intros Hlast.
  destruct (last _) as [[k u]|] eqn:Hl; [|discriminate]. injection Hlast as <-.
  apply last_Some_elem_of, list_elem_of_filter in Hl as [Hk Hin]. simpl in Hk. subst k.
  apply list_elem_of_fmap in Hin as (u' & [= -> ->] & Hu'). done.
Qed.

(** X21: when [execute] gets as far as the roster, all four responses were
    ok and their bodies readable, and the roster it works on is the first
    roster of the league whose owner is a user of the league known by the
    configured user name or team name, as display name or as user name. *)
Theorem roster_is_the_managers config leagueConfig net league myRoster players :
  fetchData config leagueConfig net = Normal (league, myRoster, players) ->
  exists rosters users user,
    (rostersResponse net ≫= json) = Normal rosters
    /\ (usersResponse net ≫= json) = Normal users
    /\ (leagueResponse net ≫= json) = Normal league
    /\ (playersResponse net ≫= json) = Normal players
    /\ (exists before after,
          rosters = before ++ myRoster :: after
          /\ Forall (fun roster =>
                       isMyRoster config leagueConfig
                         (mapOfEntries (map (fun user => (Sleeper.user_id user, user)) users))
                         roster = false) before)
    /\ user ∈ users /\ Sleeper.user_id user = Sleeper.owner_id myRoster
    /\ (Sleeper.display_name user = username config
        \/ Sleeper.username user = username config
        \/ Sleeper.display_name user = teamName leagueConfig
        \/ Sleeper.username user = teamName leagueConfig).
Proof.
  intros Hdata.
  apply fetchData_Normal in Hdata
    as (leagueR & rostersR & usersR & playersR & rosters & users
        & HL & HR & HU & HP & _ & _ & _ & _ & HjL & HjR & HjU & HjP & Hfind).
  assert (Hmine : isMyRoster config leagueConfig
                    (mapOfEntries (map (fun user => (Sleeper.user_id user, user)) users))
                    myRoster = true)
    by (by apply find_some in Hfind as [_ ?]).
  unfold isMyRoster in Hmine.
  destruct (mapOfEntries _ !! Sleeper.owner_id myRoster) as [user|] eqn:Hlook; [|discriminate].
  apply userMap_lookup in Hlook as [Hin Hid].
  exists rosters, users, user.
  rewrite HL, HR, HU, HP. simpl. repeat (split; [done|]). split.
  - clear -Hfind. induction rosters as [|r rest IH]; [discriminate|].
    simpl in Hfind. destruct (isMyRoster _ _ _ r) eqn:Hr.
    + injection Hfind as ->. exists [], rest. split; [done | constructor].
    + destruct (IH Hfind) as (before & after & -> & Hall).
      exists (r :: before), after. split; [done | by constructor].
  - repeat (split; [done|]).
    rewrite !orb_true_iff, !bool_decide_eq_true in Hmine. tauto.
Qed.

(** X22: when the four fetches resolve and one of the responses is not ok,
    [execute] throws Failed to fetch lineup optimization data, with the
    prefix of [execute] in front, whatever the bodies hold. *)
Theorem not_ok_response_fails config argsLeague leagueConfig net
    leagueR rostersR usersR playersR :
  getLeagueConfig config argsLeague = Some leagueConfig ->
  leagueResponse net = Normal leagueR -> rostersResponse net = Normal rostersR ->
  usersResponse net = Normal usersR -> playersResponse net = Normal playersR ->
  ok leagueR && ok rostersR && ok usersR && ok playersR = false ->
  execute StringToNumber config argsLeague net
  = Throw "Failed to optimize lineup: Failed to fetch lineup optimization data".
Proof.
  intros Hconfig HL HR HU HP Hok.
  assert (fetchData config leagueConfig net = Throw "Failed to fetch lineup optimization data")
    as Hdata.
  { unfold fetchData. rewrite HL, HR, HU, HP. simpl.
    destruct (ok leagueR), (ok rostersR), (ok usersR), (ok playersR); simpl in *;
      done. }
  unfold execute, executeTry. by rewrite Hconfig, Hdata.
Qed.

End ExecuteFetches.


Lemma roster_is_the_managers_witness :
  fetchData sample_config (ROAD_TO_GLORY sample_config) scenarioD_net
  = Normal ({| Sleeper.roster_positions := ["QB"; "RB"; "BN"] |},
            {| Sleeper.owner_id := "u1"; Sleeper.players := ["QB1"; "QB2"; "RB1"];
               Sleeper.starters := ["QB2"; "RB1"] |},
            scenarioD_players)
  /\ exists user,
       user ∈ sample_users /\ Sleeper.user_id user = "u1"
       /\ (Sleeper.display_name user = "manager" \/ Sleeper.username user = "manager"
           \/ Sleeper.display_name user = "Team One" \/ Sleeper.username user = "Team One").
Proof.
  assert (H : fetchData sample_config (ROAD_TO_GLORY sample_config) scenarioD_net
              = Normal ({| Sleeper.roster_positions := ["QB"; "RB"; "BN"] |},
                        {| Sleeper.owner_id := "u1"; Sleeper.players := ["QB1"; "QB2"; "RB1"];
                           Sleeper.starters := ["QB2"; "RB1"] |},
                        scenarioD_players))
    by (vm_compute; reflexivity).
  split; [exact H|].
  destruct (roster_is_the_managers sample_config (ROAD_TO_GLORY sample_config) scenarioD_net
              _ _ _ H)
    as (rosters & users & user & _ & Husers & _ & _ & _ & Hin & Hid & Hname).
  injection Husers as <-. exists user. auto.
Defined.

Lemma not_ok_response_fails_witness :
  getLeagueConfig sample_config None = Some (ROAD_TO_GLORY sample_config)
  /\ ok {| ok := false; json := (Throw "Unexpected token" : Completion (list Sleeper.Roster)) |}
     = false
  /\ execute nonNumeric sample_config None notOk_net
     = Throw "Failed to optimize lineup: Failed to fetch lineup optimization data".
Proof.
  split; [reflexivity|]. split; [reflexivity|].
  exact (not_ok_response_fails nonNumeric sample_config None (ROAD_TO_GLORY sample_config)
           notOk_net
           {| ok := true; json := Normal {| Sleeper.roster_positions := ["QB"; "RB"; "BN"] |} |}
           {| ok := false; json := Throw "Unexpected token" |}
           {| ok := true; json := Normal sample_users |}
           {| ok := true; json := Normal scenarioD_players |}
           eq_refl eq_refl eq_refl eq_refl eq_refl eq_refl).
Defined.

(** ** No player twice *)

Lemma optimizeLineup_NoDup playersByPosition rosterPositions :
  NoDup (map entryId (optimizeLineup playersByPosition rosterPositions)).
Proof.
  induction rosterPositions as [|position rest IH] using rev_ind; [constructor|].
  rewrite optimizeLineup_snoc, map_app. apply NoDup_app. split; [done|]. split.
  - intros id Hin (e & -> & He)%list_elem_of_fmap.
    pose proof (slotEntries_ids playersByPosition
                  (usedIds (optimizeLineup playersByPosition rest)) position) as Hall.
    rewrite Forall_forall in Hall. apply (Hall e He).
    unfold usedIds. by apply elem_of_list_to_set.
  - unfold slotEntries. case_decide; [constructor|].
    destruct (selectFor _ _ _); simpl; [apply NoDup_singleton | constructor].
Qed.

(** ** The request handler *)

Section HandlerProperties.

Variable stringify : Result -> string.
Variable StringToNumber : string -> JsNumber.
Variable otherTools : string -> Completion (list TextContent).

(** X25: a call with a name that is none of the twelve tool names never
    throws either: the response is the text Error: Unknown tool followed by
    the name, and no tool is run. *)
Theorem unknown_tool_response config name argsLeague net :
  name ∉ ("optimize_lineup" :: otherToolNames) ->
  callTool stringify StringToNumber otherTools config name argsLeague net
  = Normal (textResponse ("Error: Unknown tool: " +:+ name)).
Proof.
  intros Hname. apply not_elem_of_cons in Hname as [Hne Hother].
  unfold callTool, dispatch. by rewrite !decide_False by done.
Qed.

End HandlerProperties.

Lemma unknown_tool_response_witness :
  ("get_standings" ∉ "optimize_lineup" :: otherToolNames)
  /\ callTool (fun _ => "{}") nonNumeric (fun _ => Normal []) sample_config
              "get_standings" None scenarioD_net
     = Normal (textResponse "Error: Unknown tool: get_standings").
Proof.
  assert (H : "get_standings" ∉ "optimize_lineup" :: otherToolNames)
    by (apply (bool_decide_unpack _); vm_compute; exact I).
  split; [exact H|].
  exact (unknown_tool_response (fun _ => "{}") nonNumeric (fun _ => Normal []) sample_config
           "get_standings" None scenarioD_net H).
Defined.

(** * The functions on a plain object *)

(** ** Loops that may throw *)

Lemma forEach_app {A B} (body : A -> B -> Completion A) a (l1 l2 : list B) :
  forEach body a (l1 ++ l2) = a' ← forEach body a l1; forEach body a' l2.
Proof.
  revert a. induction l1 as [|x l1 IH]; intros a; simpl; [done|].
  destruct (body a x) as [a'|]; simpl; [apply IH | done].
Qed.

Lemma forEach_foldl {A B C} (body : A -> B -> Completion A) (step : C -> B -> C)
    (R : A -> C -> Prop) :
  (forall a c x a', R a c -> body a x = Normal a' -> R a' (step c x)) ->
  forall l a c a', R a c -> forEach body a l = Normal a' -> R a' (foldl step c l).
Proof.
  intros Hstep. induction l as [|x l IH]; simpl; intros a c a' HR.
  - by intros [= <-].
  - destruct (body a x) as [a1|] eqn:Hbody; simpl; [|discriminate].
    apply IH. by apply (Hstep a c x a1).
Qed.

Lemma forEach_throws {A B} (body : A -> B -> Completion A) (I : A -> Prop)
    (bad : B -> Prop) `{forall x, Decision (bad x)} message :
  (forall a x, I a -> ~ bad x -> exists a', body a x = Normal a' /\ I a') ->
  (forall a x, I a -> bad x -> body a x = Throw message) ->
  forall l a, I a ->
    if decide (Exists bad l) then forEach body a l = Throw message
    else exists a', forEach body a l = Normal a' /\ I a'.
Proof.
  intros Hgood Hbad. induction l as [|x l IH]; intros a Ha.
  - rewrite decide_False by (by intros ?%Exists_nil). simpl. eauto.
  - simpl. destruct (decide (bad x)) as [Hx|Hx].
    + rewrite decide_True by (by left). by rewrite (Hbad a x Ha Hx).
    + destruct (Hgood a x Ha Hx) as (a' & -> & Ha'). simpl.
      specialize (IH a' Ha'). destruct (decide (Exists bad l)) as [Hl|Hl].
      * rewrite decide_True by (by right). done.
      * rewrite decide_False; [done|]. by intros [?|?]%Exists_cons.
Qed.

(** ** Array indices *)

Example arrayIndex_examples :
  arrayIndex "0" = Some 0%N /\ arrayIndex "10" = Some 10%N
  /\ arrayIndex "4294967294" = Some 4294967294%N
  /\ arrayIndex "4294967295" = None /\ arrayIndex "01" = None
  /\ arrayIndex "" = None /\ arrayIndex "1e3" = None /\ arrayIndex "QB" = None.
Proof. repeat split; vm_compute; reflexivity. Qed.

Example ownKeysOrder_example :
  ownKeysOrder ["QB"; "10"; "RB"; "2"; "007"] = ["2"; "10"; "QB"; "RB"; "007"].
Proof. vm_compute. reflexivity. Qed.

(** ** The own properties of [grouped] *)

Lemma lookupGroup_app k (g1 g2 : Grouped) :
  lookupGroup k (g1 ++ g2)
  = match lookupGroup k g1 with
    | Some ps => Some ps
    | None => lookupGroup k g2
    end.
Proof.
  induction g1 as [|[k0 ps] rest IH]; simpl; [done|]. by case_decide.
Qed.

Lemma lookupGroup_placeIndex k index name ps (obj : Grouped) :
  lookupGroup name obj = None ->
  lookupGroup k (placeIndex index name ps obj)
  = if decide (name = k) then Some ps else lookupGroup k obj.
Proof.
  induction obj as [|[k0 v] rest IH]; simpl; intros Hnone.
  - done.
  - destruct (decide (k0 = name)) as [|Hne]; [discriminate|].
    destruct (arrayIndex k0) as [i|]; [destruct (index <? i)%N|]; simpl;
      try rewrite (IH Hnone); repeat case_decide; subst; done.
Qed.

Lemma lookupGroup_createProperty k name ps (obj : Grouped) :
  lookupGroup name obj = None ->
  lookupGroup k (createProperty name ps obj)
  = if decide (name = k) then Some ps else lookupGroup k obj.
Proof.
  intros Hnone. unfold createProperty. destruct (arrayIndex name) as [index|].
  - by apply lookupGroup_placeIndex.
  - rewrite lookupGroup_app. simpl. case_decide as Hk.
    + subst. by rewrite Hnone.
    + by destruct (lookupGroup k obj).
Qed.

Lemma pushPlayerJs_Normal position p grouped grouped' :
  pushPlayerJs position p grouped = Normal grouped' ->
  (lookupGroup position grouped = None -> position ∉ inheritedNames)
  /\ forall k, lookupGroup k grouped'
               = if decide (position = k) then Some (groupList k grouped ++ [p])
                 else lookupGroup k grouped.
Proof.
  unfold pushPlayerJs, getProperty.
  destruct (lookupGroup position grouped) as [ps|] eqn:Hlook.
  - intros [= <-]. split; [done|]. intros k. apply lookupGroup_pushPlayer.
  - case_decide as Hin; [discriminate|]. intros [= <-]. split; [done|].
    intros k. rewrite lookupGroup_createProperty by done.
    case_decide; [|done]. subst. unfold groupList. by rewrite Hlook.
Qed.

(** The same own properties, whatever their order. *)
Lemma pushPlayerJs_table position p grouped grouped0 grouped' :
  (forall k, lookupGroup k grouped = lookupGroup k grouped0) ->
  pushPlayerJs position p grouped = Normal grouped' ->
  forall k, lookupGroup k grouped' = lookupGroup k (pushPlayer position p grouped0).
Proof.
  intros Hsame [_ Hnew]%pushPlayerJs_Normal k.
  rewrite Hnew, lookupGroup_pushPlayer. unfold groupList. by rewrite Hsame.
Qed.

Lemma pushAllJs_table player positions grouped grouped0 grouped' :
  (forall k, lookupGroup k grouped = lookupGroup k grouped0) ->
  pushAllJs player grouped positions = Normal grouped' ->
  forall k, lookupGroup k grouped' = lookupGroup k (pushAll player grouped0 positions).
Proof.
  intros Hsame Hrun.
  refine (forEach_foldl _ (fun grouped position => pushPlayer position player grouped)
            (fun g g0 => forall k, lookupGroup k g = lookupGroup k g0) _
            positions grouped grouped0 grouped' Hsame Hrun).
  intros a c x a' HR Hbody. by apply (pushPlayerJs_table x player a c a').
Qed.

Lemma collectGroupsJs_table players grouped :
  collectGroupsJs players = Normal grouped ->
  forall k, lookupGroup k grouped = lookupGroup k (collectGroups players).
Proof.
  intros Hrun.
  refine (forEach_foldl _
            (fun grouped player => pushAll player grouped (eligiblePositions player))
            (fun g g0 => forall k, lookupGroup k g = lookupGroup k g0) _
            players [] [] grouped _ Hrun); [|done].
  intros a c x a' HR Hbody. by apply (pushAllJs_table x _ a c a').
Qed.

(** ** The order of the keys *)

Lemma insertIndex_Permutation name sorted : insertIndex name sorted ≡ₚ name :: sorted.
Proof.
  induction sorted as [|k rest IH]; simpl; [done|].
  destruct (_ <? _)%N; [done|]. rewrite IH. apply Permutation_swap.
Qed.

Lemma ascending_snoc names name :
  ascending (names ++ [name]) = insertIndex name (ascending names).
Proof. unfold ascending. by rewrite foldl_app. Qed.

Lemma ascending_Permutation names : ascending names ≡ₚ names.
Proof.
  induction names as [|name rest IH] using rev_ind; [done|].
  rewrite ascending_snoc, insertIndex_Permutation, IH.
  by rewrite Permutation_cons_append.
Qed.

Lemma insertIndex_sorted name sorted :
  StronglySorted (fun a b => (indexOf a <= indexOf b)%N) sorted ->
  StronglySorted (fun a b => (indexOf a <= indexOf b)%N) (insertIndex name sorted).
Proof.
  induction 1 as [|k rest Hsorted IH Hall]; simpl; [repeat constructor|].
  destruct (N.ltb_spec (indexOf name) (indexOf k)) as [Hlt|Hge].
  - constructor; [by constructor|]. constructor; [lia|].
    eapply Forall_impl; [exact Hall|]. simpl. intros. lia.
  - constructor; [done|]. rewrite insertIndex_Permutation. by constructor.
Qed.

Lemma ascending_sorted names :
  StronglySorted (fun a b => (indexOf a <= indexOf b)%N) (ascending names).
Proof.
  induction names as [|name rest IH] using rev_ind; [constructor|].
  rewrite ascending_snoc. by apply insertIndex_sorted.
Qed.

Lemma filter_all {A} (P : A -> Prop) `{forall x, Decision (P x)} (l : list A) :
  Forall P l -> filter P l = l.
Proof.
  induction 1 as [|x l Hx _ IH]; [done|]. by rewrite filter_cons_True, IH.
Qed.

Lemma ownKeysOrder_Permutation names : ownKeysOrder names ≡ₚ names.
Proof.
  unfold ownKeysOrder. rewrite ascending_Permutation.
  induction names as [|name rest IH]; [done|].
  rewrite !filter_cons. destruct (isIndex name); simpl.
  - by rewrite IH.
  - by rewrite <- Permutation_middle, IH.
Qed.

Lemma elem_of_ownKeysOrder k names : k ∈ ownKeysOrder names <-> k ∈ names.
Proof. by rewrite ownKeysOrder_Permutation. Qed.

Lemma ownKeysOrder_NoDup names : NoDup names -> NoDup (ownKeysOrder names).
Proof. by rewrite ownKeysOrder_Permutation. Qed.

Lemma ownKeysOrder_plain names :
  Forall (fun name => arrayIndex name = None) names -> ownKeysOrder names = names.
Proof.
  intros Hall. unfold ownKeysOrder.
  assert (Hplain : Forall (fun name => isIndex name = false) names).
  { eapply Forall_impl; [exact Hall|]. simpl. intros name Hname. unfold isIndex.
    by rewrite Hname. }
  clear Hall.
  assert (filter (fun name => isIndex name = true) names = []) as ->.
  { induction Hplain as [|name rest Hname _ IH]; [done|].
    by rewrite filter_cons, Hname. }
  induction Hplain as [|name rest Hname _ IH]; [done|].
  rewrite filter_cons, Hname. simpl in *. by rewrite IH.
Qed.

Lemma keys_placeIndex {A} index name (a : A) (obj : list (string * A)) : forall front back,
  arrayIndex name = Some index ->
  Forall (fun k => isIndex k = true) front ->
  Forall (fun k => isIndex k = false) back ->
  map fst obj = front ++ back ->
  map fst (placeIndex index name a obj) = insertIndex name front ++ back.
Proof.
  intros front back Hname. unfold indexOf.
  revert front back. induction obj as [|[k v] rest IH]; intros front back Hfront Hback Hkeys.
  - symmetry in Hkeys. apply app_eq_nil in Hkeys as [-> ->]. done.
  - cbn [map fst] in Hkeys. destruct front as [|k' front].
    + simpl in Hkeys. subst back. apply Forall_cons in Hback as [Hk _].
      unfold isIndex in Hk. simpl. destruct (arrayIndex k); [discriminate | done].
    + injection Hkeys as <- Hkeys. apply Forall_cons in Hfront as [Hk Hfront].
      unfold isIndex in Hk. cbn [placeIndex insertIndex]. unfold indexOf. rewrite Hname.
      destruct (arrayIndex k) as [i|]; [|discriminate]. simpl.
      destruct (index <? i)%N; cbn [map fst].
      * by rewrite Hkeys.
      * rewrite (IH front back) by done. done.
Qed.

Lemma filter_snoc_index names name :
  filter (fun name => isIndex name = true) (names ++ [name])
  = filter (fun name => isIndex name = true) names ++ (if isIndex name then [name] else []).
Proof. rewrite filter_app. f_equal. rewrite filter_cons. by destruct (isIndex name). Qed.

Lemma filter_snoc_plain names name :
  filter (fun name => isIndex name = false) (names ++ [name])
  = filter (fun name => isIndex name = false) names ++ (if isIndex name then [] else [name]).
Proof. rewrite filter_app. f_equal. rewrite filter_cons. by destruct (isIndex name). Qed.

Lemma keys_createProperty {A} name (a : A) (obj : list (string * A)) seen :
  map fst obj = ownKeysOrder seen ->
  map fst (createProperty name a obj) = ownKeysOrder (seen ++ [name]).
Proof.
  intros Hkeys. unfold createProperty, ownKeysOrder.
  rewrite filter_snoc_index, filter_snoc_plain.
  assert (Hindex : isIndex name = match arrayIndex name with Some _ => true | None => false end)
    by done.
  destruct (arrayIndex name) as [index|] eqn:Hname; rewrite Hindex.
  - rewrite ascending_snoc, app_nil_r.
    apply keys_placeIndex; [done | | | done].
    + rewrite ascending_Permutation. apply Forall_forall.
      by intros k [Hk _]%list_elem_of_filter.
    + apply Forall_forall. by intros k [Hk _]%list_elem_of_filter.
  - rewrite map_app, Hkeys, app_nil_r. unfold ownKeysOrder. by rewrite <- app_assoc.
Qed.

Lemma pushPlayerJs_keys position p grouped grouped' seen :
  map fst grouped = ownKeysOrder seen ->
  pushPlayerJs position p grouped = Normal grouped' ->
  map fst grouped' = ownKeysOrder (seeOne seen position).
Proof.
  intros Hkeys. unfold pushPlayerJs, getProperty, seeOne.
  destruct (lookupGroup position grouped) as [ps|] eqn:Hlook.
  - intros [= <-]. rewrite keys_pushPlayer. unfold seeOne.
    assert (position ∈ map fst grouped) as Hin
      by (apply lookupGroup_is_Some; by rewrite Hlook).
    rewrite decide_True by done. rewrite Hkeys in Hin.
    rewrite elem_of_ownKeysOrder in Hin. rewrite decide_True by done. done.
  - case_decide; [discriminate|]. intros [= <-].
    rewrite decide_False; [by apply keys_createProperty|].
    intros Hin. rewrite <- elem_of_ownKeysOrder, <- Hkeys in Hin.
    apply lookupGroup_is_Some in Hin as [ps Hps]. by rewrite Hlook in Hps.
Qed.

Lemma pushAllJs_keys player positions grouped grouped' seen :
  map fst grouped = ownKeysOrder seen ->
  pushAllJs player grouped positions = Normal grouped' ->
  map fst grouped' = ownKeysOrder (seeAll seen positions).
Proof.
  intros Hkeys Hrun.
  refine (forEach_foldl _ seeOne (fun g seen => map fst g = ownKeysOrder seen) _
            positions grouped seen grouped' Hkeys Hrun).
  intros a c x a' HR Hbody. by apply (pushPlayerJs_keys x player a a' c).
Qed.

Lemma collectGroupsJs_keys players grouped :
  collectGroupsJs players = Normal grouped ->
  map fst grouped = ownKeysOrder (positionsSeen players).
Proof.
  intros Hrun. unfold positionsSeen, firstSeen, seeAll.
  assert (Hfold : forall seen,
            foldl seeOne seen (flat_map eligiblePositions players)
            = foldl (fun seen player => seeAll seen (eligiblePositions player)) seen players).
  { clear Hrun. induction players as [|p rest IH]; intros seen; simpl; [done|].
    rewrite foldl_app, IH. reflexivity. }
  rewrite Hfold.
  refine (forEach_foldl _ (fun seen player => seeAll seen (eligiblePositions player))
            (fun g seen => map fst g = ownKeysOrder seen) _
            players [] [] grouped _ Hrun); [|done].
  intros a c x a' HR Hbody. by apply (pushAllJs_keys x _ a a' c).
Qed.

(** ** When the grouping throws *)

Lemma pushPlayerJs_plain position p grouped :
  plainKeys grouped -> position ∉ inheritedNames ->
  exists grouped', pushPlayerJs position p grouped = Normal grouped' /\ plainKeys grouped'.
Proof.
  intros Hplain Hposition.
  assert (exists grouped', pushPlayerJs position p grouped = Normal grouped') as [grouped' Hrun].
  { unfold pushPlayerJs, getProperty. destruct (lookupGroup position grouped); [eauto|].
    rewrite decide_False by done. eauto. }
  exists grouped'. split; [done|].
  apply pushPlayerJs_Normal in Hrun as [_ Hnew].
  unfold plainKeys in *. rewrite Forall_forall in *. intros k Hk.
  apply lookupGroup_is_Some in Hk. rewrite Hnew in Hk.
  case_decide; [by subst|]. by apply Hplain, lookupGroup_is_Some.
Qed.

Lemma pushPlayerJs_inherited position p grouped :
  plainKeys grouped -> position ∈ inheritedNames ->
  pushPlayerJs position p grouped = Throw "grouped[position].push is not a function".
Proof.
  intros Hplain Hposition. unfold pushPlayerJs, getProperty.
  destruct (lookupGroup position grouped) as [ps|] eqn:Hlook.
  - unfold plainKeys in Hplain. rewrite Forall_forall in Hplain.
    destruct (Hplain position); [|done]. apply lookupGroup_is_Some. by rewrite Hlook.
  - by rewrite decide_True.
Qed.

Lemma pushAllJs_cases player positions grouped :
  plainKeys grouped ->
  if decide (Exists (fun position => position ∈ inheritedNames) positions)
  then pushAllJs player grouped positions = Throw "grouped[position].push is not a function"
  else exists grouped', pushAllJs player grouped positions = Normal grouped'
                        /\ plainKeys grouped'.
Proof.
  apply (forEach_throws (fun grouped position => pushPlayerJs position player grouped)
           plainKeys (fun position => position ∈ inheritedNames)).
  - intros g position Hg Hposition. by apply pushPlayerJs_plain.
  - intros g position Hg Hposition. by apply pushPlayerJs_inherited.
Qed.

Lemma Exists_flat_map {A B} (P : B -> Prop) (f : A -> list B) (l : list A) :
  Exists P (flat_map f l) <-> Exists (fun x => Exists P (f x)) l.
Proof.
  induction l as [|x l IH]; simpl.
  - by rewrite !Exists_nil.
  - by rewrite Exists_app, Exists_cons, IH.
Qed.

Lemma collectGroupsJs_cases players :
  if decide (inheritedPosition players)
  then collectGroupsJs players = Throw "grouped[position].push is not a function"
  else exists grouped, collectGroupsJs players = Normal grouped /\ plainKeys grouped.
Proof.
  pose proof (forEach_throws
                (fun grouped player => pushAllJs player grouped (eligiblePositions player))
                plainKeys
                (fun player => Exists (fun position => position ∈ inheritedNames)
                                      (eligiblePositions player))
                "grouped[position].push is not a function") as Hcases.
  specialize (Hcases
    ltac:(intros g player Hg Hplayer;
          pose proof (pushAllJs_cases player (eligiblePositions player) g Hg) as H;
          by rewrite decide_False in H by done)
    ltac:(intros g player Hg Hplayer;
          pose proof (pushAllJs_cases player (eligiblePositions player) g Hg) as H;
          by rewrite decide_True in H by done)
    players [] ltac:(constructor)).
  unfold inheritedPosition.
  destruct (decide (Exists _ players)) as [Hex|Hex].
  - rewrite decide_True by (by apply Exists_flat_map). done.
  - rewrite decide_False by (by rewrite Exists_flat_map). done.
Qed.

Lemma plainKeys_sorted (sort : list Player -> list Player) (grouped : Grouped) :
  plainKeys grouped -> plainKeys (map (fun kv => (kv.1, sort kv.2)) grouped).
Proof. unfold plainKeys. by rewrite map_map. Qed.

Lemma groupPlayersByPositionJs_cases players :
  if decide (inheritedPosition players)
  then groupPlayersByPositionJs players = Throw "grouped[position].push is not a function"
  else exists grouped, groupPlayersByPositionJs players = Normal grouped.
Proof.
  pose proof (collectGroupsJs_cases players) as Hcases. unfold groupPlayersByPositionJs.
  destruct (decide (inheritedPosition players)).
  - by rewrite Hcases.
  - destruct Hcases as (grouped & -> & _). simpl. eauto.
Qed.

(** What the grouping returns: the own properties of the association list,
    in the order of [Object.keys]. *)
Lemma groupPlayersByPositionJs_Normal players grouped :
  groupPlayersByPositionJs players = Normal grouped ->
  (forall k, lookupGroup k grouped = lookupGroup k (groupPlayersByPosition players))
  /\ map fst grouped = ownKeysOrder (positionsSeen players)
  /\ plainKeys grouped
  /\ ~ inheritedPosition players.
Proof.
  pose proof (collectGroupsJs_cases players) as Hcases. unfold groupPlayersByPositionJs.
  destruct (decide (inheritedPosition players)) as [|Hplain].
  { rewrite Hcases. discriminate. }
  destruct Hcases as (collected & Hrun & Hkeys). rewrite Hrun. simpl. intros [= <-].
  split; [|split; [|split]]; [| |by apply plainKeys_sorted|done].
  - intros k. unfold groupPlayersByPosition, groupPlayersByPositionWith.
    by rewrite !lookupGroup_sorted, (collectGroupsJs_table players collected Hrun).
  - rewrite map_map. simpl. by apply collectGroupsJs_keys.
Qed.

(** ** When the lineup throws *)

Lemma selectForJs_plain playersByPosition usedPlayers slot :
  slot ≠ "BN" -> ~ readsInherited playersByPosition slot ->
  selectForJs playersByPosition usedPlayers slot
  = Normal (selectFor playersByPosition usedPlayers slot).
Proof.
  intros Hbn Hplain. unfold selectForJs, selectFor. repeat case_decide; try done.
  unfold selectFixedJs, selectFixed, getProperty.
  destruct (lookupGroup slot playersByPosition) eqn:Hlook; [done|].
  rewrite decide_False; [done|]. intros Hin. apply Hplain. split; [|done].
  rewrite !not_elem_of_cons. repeat split; try done. apply not_elem_of_nil.
Qed.

Lemma fillSlotJs_plain playersByPosition st slot :
  ~ readsInherited playersByPosition slot ->
  fillSlotJs playersByPosition st slot = Normal (fillSlot playersByPosition st slot).
Proof.
  intros Hplain. unfold fillSlotJs, fillSlot. case_decide as Hbn; [done|].
  by rewrite selectForJs_plain.
Qed.

Lemma fillSlotJs_inherited playersByPosition st slot :
  readsInherited playersByPosition slot ->
  fillSlotJs playersByPosition st slot
  = Throw "playersByPosition[position].find is not a function".
Proof.
  intros (Hslot & Hlook & Hin). rewrite !not_elem_of_cons in Hslot.
  destruct Hslot as (Hbn & Hflex & Hsuper & _).
  unfold fillSlotJs, selectForJs, selectFixedJs, getProperty.
  rewrite !decide_False by done. rewrite Hlook. by rewrite decide_True.
Qed.

Lemma optimizeLineupJs_cases playersByPosition rosterPositions :
  optimizeLineupJs playersByPosition rosterPositions
  = if decide (Exists (readsInherited playersByPosition) rosterPositions)
    then Throw "playersByPosition[position].find is not a function"
    else Normal (optimizeLineup playersByPosition rosterPositions).
Proof.
  unfold optimizeLineupJs, optimizeLineup. generalize emptyLineup.
  induction rosterPositions as [|slot rest IH]; intros st.
  - rewrite decide_False by (by intros ?%Exists_nil). done.
  - simpl. destruct (decide (readsInherited playersByPosition slot)) as [Hslot|Hslot].
    + rewrite decide_True by (by left). by rewrite fillSlotJs_inherited.
    + rewrite fillSlotJs_plain by done. simpl. rewrite IH.
      destruct (decide (Exists _ rest)) as [Hrest|Hrest].
      * rewrite decide_True by (by right). done.
      * rewrite decide_False; [done|]. by intros [?|?]%Exists_cons.
Qed.

Lemma readsInherited_plainKeys playersByPosition slot :
  plainKeys playersByPosition ->
  readsInherited playersByPosition slot
  <-> (slot ∉ ["BN"; "FLEX"; "SUPER_FLEX"]) /\ slot ∈ inheritedNames.
Proof.
  intros Hplain. unfold readsInherited. split; [tauto|]. intros [Hslot Hin].
  split; [done|]. split; [|done].
  destruct (lookupGroup slot playersByPosition) as [ps|] eqn:Hlook; [|done].
  unfold plainKeys in Hplain. rewrite Forall_forall in Hplain.
  destruct (Hplain slot); [|done]. apply lookupGroup_is_Some. by rewrite Hlook.
Qed.

Lemma assignJs_cases players slots :
  if decide (inheritedPosition players)
  then assignJs players slots = Throw "grouped[position].push is not a function"
  else exists playersByPosition,
         groupPlayersByPositionJs players = Normal playersByPosition
         /\ assignJs players slots
            = if decide (inheritedSlot slots)
              then Throw "playersByPosition[position].find is not a function"
              else Normal (optimizeLineup playersByPosition slots).
Proof.
  pose proof (groupPlayersByPositionJs_cases players) as Hcases. unfold assignJs.
  destruct (decide (inheritedPosition players)); [by rewrite Hcases|].
  destruct Hcases as [playersByPosition Hrun]. exists playersByPosition. split; [done|].
  rewrite Hrun. simpl. rewrite optimizeLineupJs_cases.
  apply groupPlayersByPositionJs_Normal in Hrun as (_ & _ & Hplain & _).
  assert (Exists (readsInherited playersByPosition) slots <-> inheritedSlot slots) as Hiff.
  { unfold inheritedSlot. rewrite !Exists_exists.
    split; intros (slot & Hin & Hslot); exists slot; (split; [done|]);
      by apply (readsInherited_plainKeys playersByPosition slot Hplain). }
  destruct (decide (inheritedSlot slots)) as [Hs|Hs].
  - rewrite decide_True by (by apply Hiff). done.
  - rewrite decide_False by (by rewrite Hiff). done.
Qed.

(** ** The selection from the grouped object *)

Lemma selectFixed_table g1 g2 usedPlayers slot :
  (forall k, lookupGroup k g1 = lookupGroup k g2) ->
  selectFixed g1 usedPlayers slot = selectFixed g2 usedPlayers slot.
Proof. intros Hsame. unfold selectFixed. by rewrite Hsame. Qed.

Lemma selectFlex_table g1 g2 usedPlayers :
  (forall k, lookupGroup k g1 = lookupGroup k g2) ->
  selectFlex g1 usedPlayers = selectFlex g2 usedPlayers.
Proof. intros Hsame. unfold selectFlex. simpl. by rewrite !Hsame. Qed.

Lemma selectSuperFlex_keys playersByPosition usedPlayers players :
  (forall k, lookupGroup k playersByPosition
             = lookupGroup k (groupPlayersByPosition players)) ->
  NoDup (map fst playersByPosition) ->
  selectSuperFlex playersByPosition usedPlayers
  = firstBest (filter (fun p => isUnused usedPlayers p = true)
                      (flat_map (fun k => groupOf k players) (map fst playersByPosition))).
Proof.
  intros Hsame Hnd. unfold selectSuperFlex. rewrite scanGroups_firstBest.
  rewrite (grouped_by_keys playersByPosition Hnd) at 1. unfold better. clear Hnd.
  induction (map fst playersByPosition) as [|k ks IH]; simpl; [done|].
  rewrite !filter_app, !firstBest_app, IH. f_equal.
  unfold groupList. by rewrite Hsame, lookupGroup_groupPlayersByPosition, firstBest_sortByPoints.
Qed.

Lemma positionsSeen_NoDup players : NoDup (positionsSeen players).
Proof. apply seeAll_NoDup. constructor. Qed.

Lemma selectFor_grouped players playersByPosition usedPlayers slot :
  groupPlayersByPositionJs players = Normal playersByPosition ->
  selectFor playersByPosition usedPlayers slot
  = firstBest (filter (fun p => isUnused usedPlayers p = true)
                      (scannedBy (ownKeysOrder (positionsSeen players)) slot players)).
Proof.
  intros (Hsame & Hkeys & _)%groupPlayersByPositionJs_Normal.
  unfold selectFor, scannedBy. repeat case_decide.
  - rewrite (selectFlex_table _ _ _ Hsame). apply selectFlex_groupOf.
  - rewrite <- Hkeys. apply selectSuperFlex_keys; [done|].
    rewrite Hkeys. apply ownKeysOrder_NoDup, positionsSeen_NoDup.
  - rewrite (selectFixed_table _ _ _ _ Hsame). apply selectFixed_groupOf.
Qed.

Lemma elem_of_scannedBy keys q slot players :
  (forall k, k ∈ keys <-> k ∈ positionsSeen players) ->
  q ∈ scannedBy keys slot players <-> q ∈ players /\ accepts slot q = true.
Proof.
  intros Hkeys. unfold scannedBy. destruct (decide (slot = "FLEX")) as [->|Hflex].
  { rewrite accepts_flex, !elem_of_app, !elem_of_groupOf. tauto. }
  destruct (decide (slot = "SUPER_FLEX")) as [->|Hsuper].
  - unfold accepts. rewrite decide_False by done. rewrite decide_True by done.
    rewrite list_elem_of_In, in_flat_map, bool_decide_eq_true. split.
    + intros (k & _ & Hq). apply list_elem_of_In, elem_of_groupOf in Hq as [Hq Hk].
      split; [done|]. intros Hnil. rewrite Hnil in Hk. by apply elem_of_nil in Hk.
    + intros [Hq Hne]. destruct (eligiblePositions q) as [|k rest] eqn:Hel; [done|].
      exists k. split.
      * apply list_elem_of_In, Hkeys, elem_of_positionsSeen. exists q. rewrite Hel.
        split; [done | left].
      * apply list_elem_of_In, elem_of_groupOf. rewrite Hel. split; [done | left].
  - unfold accepts. rewrite !decide_False by done.
    by rewrite elem_of_groupOf, bool_decide_eq_true.
Qed.

Lemma selectFor_grouped_Some players playersByPosition usedPlayers slot p :
  groupPlayersByPositionJs players = Normal playersByPosition ->
  selectFor playersByPosition usedPlayers slot = Some p ->
  (p ∈ players /\ accepts slot p = true /\ playerId p ∉ usedPlayers)
  /\ forall q, q ∈ players -> accepts slot q = true -> playerId q ∉ usedPlayers ->
               projectedPoints q <= projectedPoints p.
Proof.
  intros Hgroup. rewrite (selectFor_grouped players) by done. intros Hbest.
  pose proof (elem_of_scannedBy (ownKeysOrder (positionsSeen players)) ) as Hscan.
  split.
  - apply firstBest_elem, list_elem_of_filter in Hbest as [Hunused Hin].
    apply Hscan in Hin as [Hin Hacc]; [|intros; apply elem_of_ownKeysOrder].
    unfold isUnused in Hunused. by apply bool_decide_eq_true in Hunused.
  - intros q Hq Hacc Hunused. apply firstBest_max in Hbest.
    rewrite Forall_forall in Hbest. apply Hbest, list_elem_of_filter. split.
    + unfold isUnused. by apply bool_decide_eq_true.
    + apply Hscan; [intros; apply elem_of_ownKeysOrder | done].
Qed.

Lemma selectFor_grouped_None players playersByPosition usedPlayers slot :
  groupPlayersByPositionJs players = Normal playersByPosition ->
  selectFor playersByPosition usedPlayers slot = None
  <-> forall q, q ∈ players -> accepts slot q = true -> playerId q ∈ usedPlayers.
Proof.
  intros Hgroup. rewrite (selectFor_grouped players), firstBest_None, filter_nil_iff by done.
  pose proof (elem_of_scannedBy (ownKeysOrder (positionsSeen players)) ) as Hscan.
  split.
  - intros Hnone q Hq Hacc. destruct (decide (playerId q ∈ usedPlayers)) as [|Hun]; [done|].
    exfalso. apply (Hnone q).
    + apply Hscan; [intros; apply elem_of_ownKeysOrder | done].
    + unfold isUnused. by rewrite bool_decide_eq_true_2.
  - intros Hall q [Hq Hacc]%Hscan Hun; [|intros; apply elem_of_ownKeysOrder].
    unfold isUnused in Hun. apply bool_decide_eq_true in Hun. apply Hun. by apply Hall.
Qed.

Lemma optimizeLineup_grouped_entries players playersByPosition slots :
  groupPlayersByPositionJs players = Normal playersByPosition ->
  Forall (fun e => player e ∈ players
                   /\ accepts (lineupPosition e) (player e) = true
                   /\ lineupPosition e ∈ nonBench slots)
         (optimizeLineup playersByPosition slots).
Proof.
  intros Hgroup. induction slots as [|slot rest IH] using rev_ind; [constructor|].
  rewrite optimizeLineup_snoc, nonBench_app. apply Forall_app. split.
  - eapply Forall_impl; [exact IH|]. simpl. intros e (? & ? & ?).
    rewrite elem_of_app. auto.
  - apply Forall_forall. intros e (Hbn & Hslot & Hsel)%elem_of_slotEntries.
    apply (selectFor_grouped_Some players) in Hsel as [(? & ? & _) _]; [|done].
    rewrite Hslot. split; [done|]. split; [done|]. apply elem_of_app. right.
    unfold nonBench. apply list_elem_of_filter. split; [done | left].
Qed.

(** ** The tie-break *)

Lemma grouped_sorted players playersByPosition :
  groupPlayersByPositionJs players = Normal playersByPosition ->
  Forall (fun kv => pointsDescending kv.2
                    /\ forall v, withPoints v kv.2 = withPoints v (groupOf kv.1 players))
         playersByPosition.
Proof.
  intros (Hsame & Hkeys & _)%groupPlayersByPositionJs_Normal.
  rewrite (grouped_by_keys playersByPosition)
    by (rewrite Hkeys; apply ownKeysOrder_NoDup, positionsSeen_NoDup).
  apply Forall_forall. intros kv (k & -> & _)%list_elem_of_fmap. simpl.
  unfold groupList. rewrite Hsame, lookupGroup_groupPlayersByPosition.
  split; [apply sortByPoints_descending | intros; apply withPoints_sortByPoints].
Qed.

(** C3 (amended): every position group is in descending order of projected
    points with players of equal points in input order.  For a slot with a
    position of its own, the player selected is the one the tie-break law
    chooses among the eligible unused players in input order (when the
    position is named as a member of [Object.prototype] the selection
    throws and nothing is selected).  For FLEX the law is applied to the
    unused players of the RB group, then those of the WR group, then those
    of the TE group, and for SUPER_FLEX to the groups in the order of
    [Object.keys]: the positions that are array indices in ascending
    order, then the others in the order in which they are first seen.  The
    player who is met first in this scan wins a tie, a player eligible
    for several positions being met in the first of the scanned groups
    that holds that player. *)
Theorem tie_break_law players playersByPosition usedPlayers slot :
  groupPlayersByPositionJs players = Normal playersByPosition ->
  slot ≠ "FLEX" -> slot ≠ "SUPER_FLEX" ->
  Forall (fun kv => pointsDescending kv.2
                    /\ forall v, withPoints v kv.2 = withPoints v (groupOf kv.1 players))
         playersByPosition
  /\ (if decide (slot ∈ inheritedNames)
      then throws (selectForJs playersByPosition usedPlayers slot)
      else selectForJs playersByPosition usedPlayers slot
           = Normal (inputOrderChoice players usedPlayers slot))
  /\ selectForJs playersByPosition usedPlayers "FLEX"
     = Normal (firstBest (filter (fun p => isUnused usedPlayers p = true)
                                 (groupOf "RB" players ++ groupOf "WR" players
                                  ++ groupOf "TE" players)))
  /\ selectForJs playersByPosition usedPlayers "SUPER_FLEX"
     = Normal (firstBest (filter (fun p => isUnused usedPlayers p = true)
                                 (flat_map (fun k => groupOf k players)
                                           (ownKeysOrder (positionsSeen players)))))
  /\ map fst playersByPosition = ownKeysOrder (positionsSeen players).
Proof.
  intros Hgroup Hflex Hsuper. split; [by apply grouped_sorted|].
  pose proof (selectFor_grouped players playersByPosition usedPlayers) as Hscan.
  pose proof Hgroup as (Hsame & Hkeys & Hplain & _)%groupPlayersByPositionJs_Normal.
  split; [|split; [|split]]; [| | |done].
  - assert (Hfixed : selectFixed playersByPosition usedPlayers slot
                     = inputOrderChoice players usedPlayers slot).
    { rewrite <- firstBest_groupOf by done.
      rewrite <- (selectFixed_groupOf usedPlayers slot players).
      apply (selectFixed_table playersByPosition _ _ _ Hsame). }
    unfold selectForJs. rewrite (decide_False (P := slot = "FLEX")) by done.
    rewrite (decide_False (P := slot = "SUPER_FLEX")) by done.
    unfold selectFixedJs, getProperty. unfold selectFixed in Hfixed.
    unfold plainKeys in Hplain. rewrite Forall_forall in Hplain.
    destruct (lookupGroup slot playersByPosition) as [ps|] eqn:Hlook.
    + rewrite decide_False; [by rewrite Hfixed|].
      apply Hplain, lookupGroup_is_Some. by rewrite Hlook.
    + case_decide; [exact I | by rewrite Hfixed].
  - unfold selectForJs. rewrite decide_True by done. f_equal.
    specialize (Hscan "FLEX" Hgroup). unfold selectFor, scannedBy in Hscan.
    by rewrite !decide_True in Hscan by done.
  - unfold selectForJs. rewrite decide_False by done. rewrite decide_True by done. f_equal.
    specialize (Hscan "SUPER_FLEX" Hgroup). unfold selectFor, scannedBy in Hscan.
    rewrite decide_False in Hscan by done. by rewrite !decide_True in Hscan by done.
Qed.

Lemma tie_break_law_witness :
  groupPlayersByPositionJs [QB2; mkPlayer "QB3" "QB" 1000; QB1]
  = Normal [("QB", [QB1; QB2; mkPlayer "QB3" "QB" 1000])]
  /\ "QB" ≠ "FLEX" /\ "QB" ≠ "SUPER_FLEX"
  /\ selectForJs [("QB", [QB1; QB2; mkPlayer "QB3" "QB" 1000])] {["QB1"]} "QB"
     = Normal (Some QB2).
Proof.
  assert (Hgroup : groupPlayersByPositionJs [QB2; mkPlayer "QB3" "QB" 1000; QB1]
                   = Normal [("QB", [QB1; QB2; mkPlayer "QB3" "QB" 1000])])
    by (vm_compute; reflexivity).
  split; [exact Hgroup|]. split; [done|]. split; [done|].
  destruct (tie_break_law [QB2; mkPlayer "QB3" "QB" 1000; QB1]
              [("QB", [QB1; QB2; mkPlayer "QB3" "QB" 1000])] {["QB1"]} "QB" Hgroup)
    as (_ & Hfixed & _); [done | done |].
  rewrite decide_False in Hfixed by (apply (bool_decide_unpack _); vm_compute; exact I).
  rewrite Hfixed. vm_compute. reflexivity.
Defined.

(** ** The lineup that is returned *)

Lemma assignJs_Normal players slots lineup :
  assignJs players slots = Normal lineup ->
  exists playersByPosition,
    groupPlayersByPositionJs players = Normal playersByPosition
    /\ lineup = optimizeLineup playersByPosition slots
    /\ ~ inheritedPosition players /\ ~ inheritedSlot slots.
Proof.
  pose proof (assignJs_cases players slots) as Hcases.
  destruct (decide (inheritedPosition players)); [rewrite Hcases; discriminate|].
  destruct Hcases as (playersByPosition & Hgroup & ->).
  destruct (decide (inheritedSlot slots)); [discriminate|].
  intros [= <-]. by exists playersByPosition.
Qed.

Lemma optimalProjection_snoc (optimizedLineup : list LineupEntry) e :
  optimalProjection (optimizedLineup ++ [e])
  = optimalProjection optimizedLineup + projectedPoints (player e).
Proof. unfold optimalProjection. by rewrite foldl_app. Qed.

Lemma inheritedSlot_snoc slots slot :
  inheritedSlot (slots ++ [slot])
  <-> inheritedSlot slots \/ (slot ∉ ["BN"; "FLEX"; "SUPER_FLEX"]) /\ slot ∈ inheritedNames.
Proof.
  unfold inheritedSlot. rewrite Exists_app, Exists_cons, Exists_nil. tauto.
Qed.

(** C2 (amended): the lineup that the assignment returns holds an entry for
    the slots that could be filled only.  Its lineup positions are, in
    order, a sublist of the slots other than BN, so there is at most one
    entry per such slot, and a slot that accepts no player of the pool (a
    TE slot when the pool has no tight end) has no entry.  With a further
    slot the assignment returns the same lineup or the lineup with one more
    entry at its end, for a pool player the slot accepts and who is not in
    the lineup yet, whose points are added to the total; it returns the
    same lineup exactly when the slot is BN or every pool player the slot
    accepts is in the lineup already.  (It throws when the further slot is
    named as a member of [Object.prototype].) *)
Theorem lineup_holds_filled_slots players slots slot lineup :
  assignJs players slots = Normal lineup ->
  map lineupPosition lineup `sublist_of` nonBench slots
  /\ (forall position,
        (forall q, q ∈ players -> accepts position q = false) ->
        position ∉ map lineupPosition lineup)
  /\ match assignJs players (slots ++ [slot]) with
     | Normal lineup' =>
         (lineup' = lineup
          \/ exists p, lineup' = lineup ++ [{| player := p; lineupPosition := slot |}]
                       /\ p ∈ players /\ accepts slot p = true
                       /\ (playerId p ∉ usedIds lineup)
                       /\ optimalProjection lineup'
                          = optimalProjection lineup + projectedPoints p)
         /\ (lineup' = lineup
             <-> slot = "BN"
                 \/ forall q, q ∈ players -> accepts slot q = true ->
                              playerId q ∈ usedIds lineup)
     | Throw _ => (slot ∉ ["BN"; "FLEX"; "SUPER_FLEX"]) /\ slot ∈ inheritedNames
     end.
Proof.
  intros (playersByPosition & Hgroup & -> & Hnames & Hslots)%assignJs_Normal.
  set (lineup := optimizeLineup playersByPosition slots).
  split; [apply optimizeLineup_positions|]. split.
  { intros position Hnone (e & -> & He)%list_elem_of_fmap.
    pose proof (optimizeLineup_grouped_entries players playersByPosition slots Hgroup) as Hall.
    rewrite Forall_forall in Hall. destruct (Hall e He) as (Hin & Hacc & _).
    rewrite (Hnone _ Hin) in Hacc. discriminate. }
  pose proof (assignJs_cases players (slots ++ [slot])) as Hcases.
  rewrite decide_False in Hcases by done.
  destruct Hcases as (playersByPosition' & Hgroup' & ->).
  rewrite Hgroup in Hgroup'. injection Hgroup' as <-.
  destruct (decide (inheritedSlot (slots ++ [slot]))) as [Hslot|_].
  { apply inheritedSlot_snoc in Hslot as [?|?]; done. }
  rewrite optimizeLineup_snoc. fold lineup.
  assert (Hnil : lineup ++ slotEntries playersByPosition (usedIds lineup) slot = lineup
                 <-> slotEntries playersByPosition (usedIds lineup) slot = []).
  { split; [|by intros ->; rewrite app_nil_r].
    intros Heq. apply (f_equal length) in Heq. rewrite length_app in Heq.
    apply length_zero_iff_nil. lia. }
  split.
  - unfold slotEntries. case_decide; [left; apply app_nil_r|].
    destruct (selectFor playersByPosition (usedIds lineup) slot) as [p|] eqn:Hsel;
      [|left; apply app_nil_r].
    right. exists p. split; [done|].
    apply (selectFor_grouped_Some players) in Hsel as [(? & ? & ?) _]; [|done].
    repeat (split; [done|]). apply optimalProjection_snoc.
  - rewrite Hnil. unfold slotEntries. case_decide as Hbn; [tauto|].
    rewrite <- (selectFor_grouped_None players playersByPosition) by done.
    destruct (selectFor playersByPosition (usedIds lineup) slot); split; try done.
    + intros [?|?]; done.
    + by right.
Qed.

Lemma lineup_holds_filled_slots_witness :
  assignJs scenarioC_players scenarioC_slots = Normal [entry QB1 "QB"; entry RB1 "RB"]
  /\ (forall q, q ∈ scenarioC_players -> accepts "TE" q = false)
  /\ "TE" ∉ map lineupPosition [entry QB1 "QB"; entry RB1 "RB"].
Proof.
  assert (H1 : assignJs scenarioC_players scenarioC_slots
               = Normal [entry QB1 "QB"; entry RB1 "RB"])
    by (vm_compute; reflexivity).
  assert (H2 : forall q, q ∈ scenarioC_players -> accepts "TE" q = false).
  { intros q Hq. unfold scenarioC_players in Hq.
    repeat (apply elem_of_cons in Hq as [->|Hq]; [vm_compute; reflexivity|]).
    by apply elem_of_nil in Hq. }
  repeat (split; [assumption|]).
  destruct (lineup_holds_filled_slots scenarioC_players scenarioC_slots "BN"
              [entry QB1 "QB"; entry RB1 "RB"] H1) as (_ & Hnone & _).
  exact (Hnone "TE" H2).
Defined.

(** ** When the assignment fails *)


(** ** The grouped object *)

(** X9: grouping loses and invents nothing.  In the object that
    [groupPlayersByPosition] returns, the group of a position holds exactly
    the pool players eligible for it (as often as the position occurs among
    their eligible positions), a group exists exactly for the positions
    some pool player is eligible for, and the keys are those positions, each
    once, in the order of [Object.keys]: the positions that are array
    indices in ascending order, then the others in the order in which they
    are first seen, which is the order of all keys when no position is an
    array index. *)
Theorem groups_hold_the_eligible players playersByPosition position p :
  groupPlayersByPositionJs players = Normal playersByPosition ->
  groupList position playersByPosition ≡ₚ groupOf position players
  /\ (p ∈ groupList position playersByPosition
      <-> p ∈ players /\ position ∈ eligiblePositions p)
  /\ (is_Some (lookupGroup position playersByPosition)
      <-> exists q, q ∈ players /\ position ∈ eligiblePositions q)
  /\ map fst playersByPosition = ownKeysOrder (positionsSeen players)
  /\ NoDup (map fst playersByPosition)
  /\ StronglySorted (fun a b => (indexOf a <= indexOf b)%N)
       (filter (fun name => isIndex name = true) (map fst playersByPosition))
  /\ (Forall (fun name => arrayIndex name = None) (positionsSeen players) ->
      map fst playersByPosition = positionsSeen players).
Proof.
  intros (Hsame & Hkeys & _)%groupPlayersByPositionJs_Normal.
  assert (Hgroup : groupList position playersByPosition ≡ₚ groupOf position players).
  { unfold groupList. rewrite Hsame, lookupGroup_groupPlayersByPosition.
    apply sortByPoints_Permutation. }
  split; [done|]. split; [by rewrite Hgroup, elem_of_groupOf|].
  split; [by rewrite lookupGroup_is_Some, Hkeys, elem_of_ownKeysOrder, elem_of_positionsSeen|].
  split; [done|]. rewrite Hkeys.
  split; [apply ownKeysOrder_NoDup, positionsSeen_NoDup|].
  split; [|apply ownKeysOrder_plain].
  unfold ownKeysOrder. rewrite filter_app.
  assert (filter (fun name => isIndex name = true)
                 (filter (fun name => isIndex name = false) (positionsSeen players)) = [])
    as ->.
  { apply filter_nil_iff. intros k [Hk _]%list_elem_of_filter. by rewrite Hk. }
  rewrite app_nil_r.
  set (indices := filter (fun name => isIndex name = true) (positionsSeen players)).
  assert (filter (fun name => isIndex name = true) (ascending indices) = ascending indices)
    as ->.
  { apply filter_all. rewrite ascending_Permutation. apply Forall_forall.
    by intros k [Hk _]%list_elem_of_filter. }
  apply ascending_sorted.
Qed.

Lemma groups_hold_the_eligible_witness :
  groupPlayersByPositionJs
    [mkPlayer "a" "QB" 100; mkPlayer "b" "10" 200; mkPlayer "c" "2" 300]
  = Normal [("2", [mkPlayer "c" "2" 300]); ("10", [mkPlayer "b" "10" 200]);
            ("QB", [mkPlayer "a" "QB" 100])]
  /\ positionsSeen [mkPlayer "a" "QB" 100; mkPlayer "b" "10" 200; mkPlayer "c" "2" 300]
     = ["QB"; "10"; "2"]
  /\ ownKeysOrder ["QB"; "10"; "2"] = ["2"; "10"; "QB"].
Proof.
  assert (H : groupPlayersByPositionJs
                [mkPlayer "a" "QB" 100; mkPlayer "b" "10" 200; mkPlayer "c" "2" 300]
              = Normal [("2", [mkPlayer "c" "2" 300]); ("10", [mkPlayer "b" "10" 200]);
                        ("QB", [mkPlayer "a" "QB" 100])])
    by (vm_compute; reflexivity).
  split; [exact H|]. split; [vm_compute; reflexivity|].
  destruct (groups_hold_the_eligible _ _ "QB" (mkPlayer "a" "QB" 100) H)
    as (_ & _ & _ & Hkeys & _).
  simpl in Hkeys. symmetry. exact Hkeys.
Defined.

(** ** Ordinary names *)

Lemma groupPlayersByPositionJs_ordinary players :
  Forall (fun name => arrayIndex name = None) (positionsSeen players) ->
  ~ inheritedPosition players ->
  groupPlayersByPositionJs players = Normal (groupPlayersByPosition players).
Proof.
  intros Hplain Hnames. pose proof (groupPlayersByPositionJs_cases players) as Hcases.
  rewrite decide_False in Hcases by done. destruct Hcases as [grouped Hrun].
  rewrite Hrun. f_equal.
  apply groupPlayersByPositionJs_Normal in Hrun as (Hsame & Hkeys & _).
  rewrite ownKeysOrder_plain in Hkeys by done.
  rewrite (grouped_by_keys grouped) by (rewrite Hkeys; apply positionsSeen_NoDup).
  rewrite (grouped_by_keys (groupPlayersByPosition players))
    by (rewrite keys_groupPlayersByPosition; apply positionsSeen_NoDup).
  rewrite Hkeys, keys_groupPlayersByPosition. apply map_ext. intros k.
  unfold groupList. by rewrite Hsame.
Qed.

(** X26: when no eligible position of a pool player is an array index or
    named as a member of [Object.prototype], and no slot with a position of
    its own is named so, the two functions return what they compute on the
    table of own properties: the grouping in first-seen order of the
    positions and the lineup [assign] gives. *)
Theorem assignment_on_ordinary_names players slots :
  Forall (fun name => arrayIndex name = None) (positionsSeen players) ->
  ~ inheritedPosition players ->
  ~ inheritedSlot slots ->
  groupPlayersByPositionJs players = Normal (groupPlayersByPosition players)
  /\ assignJs players slots = Normal (assign players slots).
Proof.
  intros Hplain Hnames Hslots.
  pose proof (groupPlayersByPositionJs_ordinary players Hplain Hnames) as Hgroup.
  split; [done|]. pose proof (assignJs_cases players slots) as Hcases.
  rewrite decide_False in Hcases by done.
  destruct Hcases as (playersByPosition & Hgroup' & ->).
  rewrite Hgroup in Hgroup'. injection Hgroup' as <-. by rewrite decide_False.
Qed.

Lemma assignment_on_ordinary_names_witness :
  Forall (fun name => arrayIndex name = None) (positionsSeen scenarioA_players)
  /\ ~ inheritedPosition scenarioA_players
  /\ ~ inheritedSlot scenarioA_slots
  /\ assignJs scenarioA_players scenarioA_slots = Normal (assign scenarioA_players scenarioA_slots).
Proof.
  assert (H1 : Forall (fun name => arrayIndex name = None) (positionsSeen scenarioA_players))
    by (apply (bool_decide_unpack _); vm_compute; exact I).
  assert (H2 : ~ inheritedPosition scenarioA_players)
    by (apply (bool_decide_unpack _); vm_compute; exact I).
  assert (H3 : ~ inheritedSlot scenarioA_slots)
    by (apply (bool_decide_unpack _); vm_compute; exact I).
  repeat (split; [assumption|]).
  exact (proj2 (assignment_on_ordinary_names scenarioA_players scenarioA_slots H1 H2 H3)).
Defined.

(** X27: on any object, [optimizeLineup] throws exactly when a slot with a
    position of its own reads a member of [Object.prototype], whatever the
    other slots are; otherwise it returns the lineup computed on the own
    properties. *)
Theorem lineup_throws_on_inherited_reads playersByPosition rosterPositions :
  if decide (Exists (readsInherited playersByPosition) rosterPositions)
  then throws (optimizeLineupJs playersByPosition rosterPositions)
  else optimizeLineupJs playersByPosition rosterPositions
       = Normal (optimizeLineup playersByPosition rosterPositions).
Proof. rewrite optimizeLineupJs_cases. by case_decide. Qed.

(** ** What [execute] returns *)

(** X23: when the [try] block of [execute] returns a result for a roster,
    the starters it suggests are players of that roster whom the player
    dictionary knows and reports as Active, each at a slot of the league
    that accepts the player, and no player is suggested twice. *)
Theorem suggested_starters_are_available (StringToNumber : string -> JsNumber)
    net league myRoster players result :
  optimizeRoster StringToNumber net league myRoster players = Normal result ->
  Forall (fun e =>
            entryId e ∈ Sleeper.players myRoster
            /\ (exists sp, players !! entryId e = Some sp /\ Sleeper.status sp = "Active")
            /\ accepts (lineupPosition e) (player e) = true
            /\ lineupPosition e ∈ nonBench (Sleeper.roster_positions league))
         (optimizedLineup_starters result)
  /\ NoDup (map entryId (optimizedLineup_starters result)).
Proof.
  intros (playersByPosition & Hgroup & -> & _)%optimizeRoster_lineup%assignJs_Normal.
  split; [|apply optimizeLineup_NoDup].
  eapply Forall_impl; [by apply optimizeLineup_grouped_entries|]. simpl.
  intros e (Hin & Hacc & Hslot).
  assert (entryId e ∈ map playerId
            (playerPool players (projectionsOf net (Sleeper.players myRoster))
                        (Sleeper.players myRoster))) as Hid
    by (apply list_elem_of_fmap; by exists (player e)).
  apply playerPool_spec in Hid as [Hroster Hknown]. done.
Qed.

Lemma suggested_starters_are_available_witness :
  exists result,
    optimizeRoster nonNumeric scenarioD_net
      {| Sleeper.roster_positions := ["QB"; "RB"; "BN"] |}
      {| Sleeper.owner_id := "u1"; Sleeper.players := ["QB1"; "QB2"; "RB1"];
         Sleeper.starters := ["QB2"; "RB1"] |}
      scenarioD_players
    = Normal result
    /\ NoDup (map entryId (optimizedLineup_starters result)).
Proof.
  match eval vm_compute in
        (optimizeRoster nonNumeric scenarioD_net
           {| Sleeper.roster_positions := ["QB"; "RB"; "BN"] |}
           {| Sleeper.owner_id := "u1"; Sleeper.players := ["QB1"; "QB2"; "RB1"];
              Sleeper.starters := ["QB2"; "RB1"] |}
           scenarioD_players) with
  | Normal ?r =>
      assert (H : optimizeRoster nonNumeric scenarioD_net
                    {| Sleeper.roster_positions := ["QB"; "RB"; "BN"] |}
                    {| Sleeper.owner_id := "u1"; Sleeper.players := ["QB1"; "QB2"; "RB1"];
                       Sleeper.starters := ["QB2"; "RB1"] |}
                    scenarioD_players
                  = Normal r) by (vm_compute; reflexivity);
      exists r; split; [exact H|];
      exact (proj2 (suggested_starters_are_available nonNumeric _ _ _ _ _ H))
  end.
Defined.

(** ** Plain objects at work *)

(** A slot named as a member of [Object.prototype] makes the assignment
    throw, and so does such a name among the eligible positions. *)
Example constructor_slot_throws :
  assignJs [QB1] ["QB"; "constructor"]
  = Throw "playersByPosition[position].find is not a function"
  /\ assignJs [mkPlayer "p" "toString" 100] ["QB"]
     = Throw "grouped[position].push is not a function".
Proof. split; vm_compute; reflexivity. Qed.

(** In a request, the TypeError is thrown again by the [catch] of
    [execute]. *)
Example constructor_slot_fails_the_request :
  execute nonNumeric sample_config None inherited_net
  = Throw "Failed to optimize lineup: playersByPosition[position].find is not a function".
Proof. vm_compute. reflexivity. Qed.

(** [Object.keys] lists the position 2 before the position 10 although 10
    is seen first: with the two players tied, SUPER_FLEX takes the player
    of position 2. *)
Example superflex_scans_indices_first :
  (lineup ← assignJs [mkPlayer "x" "10" 100; mkPlayer "y" "2" 100] ["SUPER_FLEX"];
   Normal (map entryId lineup))
  = Normal ["y"]
  /\ map entryId (assign [mkPlayer "x" "10" 100; mkPlayer "y" "2" 100] ["SUPER_FLEX"])
     = ["x"].
Proof. split; vm_compute; reflexivity. Qed.

(** A (WR) and B (RB, WR), tied: FLEX takes B, who is met in the RB group,
    although A is earlier in the input. *)
Example flex_takes_the_first_met :
  (lineup ← assignJs [mkPlayer "A" "WR" 1000;
                      {| playerId := "B"; name := "B"; position := "RB"; team := "FA";
                         status := "Active"; projectedPoints := 1000;
                         eligiblePositions := ["RB"; "WR"] |}]
                     ["FLEX"];
   Normal (map entryId lineup))
  = Normal ["B"].
Proof. vm_compute. reflexivity. Qed.
